(** * WC3 Sounds: a shallow embedding of [index.ts]

    The extension keeps five module-level variables ([muted], [volume],
    [currentPack], [lastPlayed], [promptTimestamps]) and reacts to host
    events.  The embedding below follows [index.ts] function by function:
    module state becomes a record threaded through a small state/exception
    monad, the file system, the clock, the random number generator and the
    interactive prompt become an explicit environment, and the calls into
    the host UI and [execFile] are collected in a trace. *)

From Stdlib Require Import ZArith QArith Qround Qreduction Qpower Qfield Lqa.
From Stdlib Require Import String Ascii List Bool Lia.
From stdpp Require Import base option list strings gmap.

Local Open Scope string_scope.
Local Open Scope list_scope.

(** ** Strings

    A JavaScript string is modelled by the bytes of its UTF-8 encoding.
    [toLowerCase] folds the ASCII capitals; the three patterns searched by
    [packForModel] are ASCII words in which the two non-ASCII code points
    whose lower case contains an ASCII letter (U+212A, U+0130) cannot
    complete a match, so ASCII folding decides the same [includes] tests
    as the full Unicode mapping. *)

Definition lower_ascii (c : ascii) : ascii :=
  let n := nat_of_ascii c in
  if (65 <=? n)%nat && (n <=? 90)%nat then ascii_of_nat (n + 32) else c.

Fixpoint toLowerCase (s : string) : string :=
  match s with
  | EmptyString => EmptyString
  | String c s' => String (lower_ascii c) (toLowerCase s')
  end.

Fixpoint startsWith (s p : string) {struct p} : bool :=
  match p, s with
  | EmptyString, _ => true
  | String _ _, EmptyString => false
  | String a p', String b s' => Ascii.eqb a b && startsWith s' p'
  end.

(** [includes s p] is [s.includes(p)]: [p] occurs in [s] at some offset. *)
Fixpoint includes (s p : string) : bool :=
  startsWith s p ||
  match s with
  | EmptyString => false
  | String _ s' => includes s' p
  end.

(** ** Pack selection by model *)

Module Model.
(** [{ provider?: string; id?: string; name?: string }] *)
Record t : Type := Build
  { provider : option string;
    id : option string;
    name : option string }.
End Model.

(** [x ?? ""] *)
Definition orEmpty (x : option string) : string := default "" x.

Definition packForModel (model : option Model.t) : string :=
  match model with
  | None => "peon"
  | Some model =>
      let id := toLowerCase (orEmpty (Model.id model)) in
      let provider := toLowerCase (orEmpty (Model.provider model)) in
      if includes id "codex" || includes provider "codex" then "peasant"
      else if includes id "claude" || includes provider "anthropic" then "peon"
      else "peon"
  end.

(** ** Numbers

    A JavaScript number is NaN, an infinity, or a finite binary64 value,
    kept as the rational it denotes, in lowest terms.  The two zeros are
    identified: the program compares, stores and prints [volume], and
    floors a product to index an array, and none of these tells [-0] from
    [0]. *)

Inductive Number : Type :=
| NaN
| PosInfinity
| NegInfinity
| Num (q : Q).

Definition isNaN (v : Number) : bool :=
  match v with NaN => true | _ => false end.

(** [a <= b] on numbers; any comparison with NaN is false. *)
Definition num_leb (a b : Number) : bool :=
  match a, b with
  | NaN, _ | _, NaN => false
  | NegInfinity, _ => true
  | _, PosInfinity => true
  | PosInfinity, _ => false
  | _, NegInfinity => false
  | Num x, Num y => Qle_bool x y
  end.

(** [a < b] *)
Definition num_ltb (a b : Number) : bool :=
  match a, b with
  | NaN, _ | _, NaN => false
  | _, NegInfinity => false
  | NegInfinity, _ => true
  | PosInfinity, _ => false
  | _, PosInfinity => true
  | Num x, Num y => negb (Qle_bool y x)
  end.

Definition num_neg (a : Number) : Number :=
  match a with
  | NaN => NaN
  | PosInfinity => NegInfinity
  | NegInfinity => PosInfinity
  | Num q => Num (Qred (- q))
  end.

(** Round to nearest, ties to even, into binary64. *)

Definition pow2 (e : Z) : Q := Qpower 2 e.

(** [ilog2 q] is the integer part of the binary logarithm of [q > 0]. *)
Definition ilog2 (q : Q) : Z :=
  let e0 := (Z.log2 (Qnum q) - Z.log2 (Zpos (Qden q)))%Z in
  if Qle_bool (pow2 e0) q then e0 else (e0 - 1)%Z.

Definition roundHalfEven (q : Q) : Z :=
  let f := Qfloor q in
  match Qcompare (q - inject_Z f) (1 # 2) with
  | Lt => f
  | Gt => (f + 1)%Z
  | Eq => if Z.even f then f else (f + 1)%Z
  end.

Definition roundPositive (q : Q) : Number :=
  let e := Z.max (ilog2 q) (-1022) in
  let ulp := pow2 (e - 52) in
  let r := (inject_Z (roundHalfEven (q / ulp)) * ulp)%Q in
  if Qle_bool (pow2 1024) r then PosInfinity else Num (Qred r).

Definition toDouble (q : Q) : Number :=
  match Qcompare q 0 with
  | Eq => Num 0
  | Gt => roundPositive q
  | Lt => num_neg (roundPositive (- q))
  end.

(** The rationals that are binary64 values: a significand of at most 53
    bits scaled by a power of two in the exponent range. *)
Definition binary64 (q : Q) : Prop :=
  exists m e : Z,
    (Z.abs m < 2 ^ 53)%Z /\ (-1074 <= e <= 971)%Z /\ (q == inject_Z m * pow2 e)%Q.

Definition binary64_zero : binary64 0.
Proof. exists 0%Z, 0%Z. split; [reflexivity|]. split; [lia | reflexivity]. Qed.

(** [Math.floor] *)
Definition Math_floor (v : Number) : Number :=
  match v with
  | Num q => Num (inject_Z (Qfloor q))
  | other => other
  end.

(** ** [parseFloat]

    Leading white space is skipped, then the longest prefix that is a
    decimal literal (sign, [Infinity] or digits with optional fraction and
    exponent) is converted; without such a prefix the result is NaN. *)

Definition digit_of (c : ascii) : option Z :=
  let n := nat_of_ascii c in
  if (48 <=? n)%nat && (n <=? 57)%nat then Some (Z.of_nat (n - 48)) else None.

(** Reads a maximal run of digits into the accumulator [acc], counting them. *)
Fixpoint readDigits (s : string) (acc : Z) (n : nat) : Z * nat * string :=
  match s with
  | EmptyString => (acc, n, s)
  | String c s' =>
      match digit_of c with
      | Some d => readDigits s' (10 * acc + d)%Z (S n)
      | None => (acc, n, s)
      end
  end.

(** White space and line terminators, as UTF-8 byte sequences. *)
Definition whiteSpace : list string :=
  [ String (ascii_of_nat 9) ""; String (ascii_of_nat 10) "";
    String (ascii_of_nat 11) ""; String (ascii_of_nat 12) "";
    String (ascii_of_nat 13) ""; " ";
    String (ascii_of_nat 194) (String (ascii_of_nat 160) "") ] ++
  map (fun b => String (ascii_of_nat 226) (String (ascii_of_nat 128)
                  (String (ascii_of_nat b) "")))
      [128; 129; 130; 131; 132; 133; 134; 135; 136; 137; 138; 168; 169; 175]%nat ++
  [ String (ascii_of_nat 225) (String (ascii_of_nat 154) (String (ascii_of_nat 128) ""));
    String (ascii_of_nat 226) (String (ascii_of_nat 129) (String (ascii_of_nat 159) ""));
    String (ascii_of_nat 227) (String (ascii_of_nat 128) (String (ascii_of_nat 128) ""));
    String (ascii_of_nat 239) (String (ascii_of_nat 187) (String (ascii_of_nat 191) "")) ].

(** [dropPrefix s p] is the rest of [s] after the prefix [p], if [s] starts with it. *)
Fixpoint dropPrefix (s p : string) {struct p} : option string :=
  match p, s with
  | EmptyString, _ => Some s
  | String _ _, EmptyString => None
  | String a p', String b s' => if Ascii.eqb a b then dropPrefix s' p' else None
  end.

Definition dropWhiteSpace1 (s : string) : option string :=
  fold_right (fun w acc => match dropPrefix s w with Some r => Some r | None => acc end)
             None whiteSpace.

Fixpoint trimStart (fuel : nat) (s : string) : string :=
  match fuel with
  | O => s
  | S fuel' =>
      match dropWhiteSpace1 s with
      | Some r => trimStart fuel' r
      | None => s
      end
  end.

(** The exponent part [e], [e+] or [e-] followed by at least one digit;
    anything else leaves the exponent at 0. *)
Definition readExponent (s : string) : Z :=
  match s with
  | String c r =>
      if Ascii.eqb c "e" || Ascii.eqb c "E" then
        let '(neg, r') :=
          match r with
          | String "-" r' => (true, r')
          | String "+" r' => (false, r')
          | _ => (false, r)
          end in
        let '(e, n, _) := readDigits r' 0 0 in
        match n with
        | O => 0%Z
        | S _ => if neg then (- e)%Z else e
        end
      else 0%Z
  | EmptyString => 0%Z
  end.

(** The unsigned part of a decimal literal. *)
Definition readUnsigned (s : string) : Number :=
  if startsWith s "Infinity" then PosInfinity else
  let '(ip, ni, r1) := readDigits s 0 0 in
  let '(m, nf, r2) :=
    match r1 with
    | String "." r1' => readDigits r1' ip 0
    | _ => (ip, O, r1)
    end in
  match (ni + nf)%nat with
  | O => NaN
  | S _ => toDouble (inject_Z m * Qpower 10 (readExponent r2 - Z.of_nat nf))
  end.

Definition parseFloat (s : string) : Number :=
  match trimStart (String.length s) s with
  | String "-" r => num_neg (readUnsigned r)
  | String "+" r => readUnsigned r
  | r => readUnsigned r
  end.

(** ** Types *)

Record SoundEntry : Type := mkSoundEntry
  { file : string;
    line : string }.

Module PackManifest.
(** The value of [categories[c]]: [{ sounds: SoundEntry[] }]. *)
Record category : Type := Category
  { sounds : list SoundEntry }.

Record t : Type := Build
  { name : string;
    display_name : string;
    categories : gmap string category }.
End PackManifest.

Inductive Category : Type :=
| Greeting | Acknowledge | Complete | Error | Permission | Annoyed.

(** The string a [Category] value is, used as a property key. *)
Definition key (c : Category) : string :=
  match c with
  | Greeting => "greeting"
  | Acknowledge => "acknowledge"
  | Complete => "complete"
  | Error => "error"
  | Permission => "permission"
  | Annoyed => "annoyed"
  end.

(** ** State *)

Record State : Type := mkState
  { muted : bool;
    volume : Number;
    currentPack : string;
    lastPlayed : gmap string string;
    promptTimestamps : list Z }.

Definition initialState : State :=
  {| muted := false;
     volume := Num (1 # 2);
     currentPack := "peon";
     lastPlayed := ∅;
     promptTimestamps := [] |}.

Definition ANNOYED_THRESHOLD : nat := 3.
Definition ANNOYED_WINDOW_MS : Z := 10000.

Definition set_muted (b : bool) (st : State) : State :=
  mkState b (volume st) (currentPack st) (lastPlayed st) (promptTimestamps st).
Definition set_volume (v : Number) (st : State) : State :=
  mkState (muted st) v (currentPack st) (lastPlayed st) (promptTimestamps st).
Definition set_currentPack (p : string) (st : State) : State :=
  mkState (muted st) (volume st) p (lastPlayed st) (promptTimestamps st).
Definition set_lastPlayed (m : gmap string string) (st : State) : State :=
  mkState (muted st) (volume st) (currentPack st) m (promptTimestamps st).
Definition set_promptTimestamps (l : list Z) (st : State) : State :=
  mkState (muted st) (volume st) (currentPack st) (lastPlayed st) l.

(** ** Environment, exceptions and effects *)

Inductive Exn : Type :=
| FsError (code : string)   (* thrown by [fs.readFileSync] *)
| SyntaxError               (* thrown by [JSON.parse] *)
| TypeError.                (* property read on [undefined] *)

Inductive Completion (A : Type) : Type :=
| Normal (a : A)
| Throw (e : Exn).
Arguments Normal {A} a.
Arguments Throw {A} e.

(** What one handler invocation observes of the outside world.  A parsed
    manifest is a value of the declared type [PackManifest] or [null]
    (the document [null]). *)
Record Env : Type := mkEnv
  { PACKS_DIR : string;
    IS_MACOS : bool;
    readFileSync : string -> Completion string;
    JSON_parse : string -> Completion (option PackManifest.t);
    existsSync : string -> bool;
    Date_now : Z;
    (** the value of [Math.random()], a number *)
    Math_random : Q;
    Math_random_binary64 : binary64 Math_random;
    (** the answer to [ctx.ui.input]; [None] is [undefined] *)
    ui_input : option string }.

(** Texts shown through the host UI.  [VolumeSet v] stands for
    [`Volume set to ${(v * 100).toFixed(0)}%`]. *)
Inductive Message : Type :=
| SoundsMuted
| SoundsUnmuted
| VolumeSet (v : Number)
| InvalidVolume.

(** Calls that leave the module.  [execFile_afplay vol soundPath] is
    [execFile("afplay", ["-v", String(vol), soundPath], callback)], whose
    callback ignores the error; [ui_prompt title v] is
    [ctx.ui.input(title, String(v))]; [setTimeout] schedules the one call
    its callback makes. *)
Inductive Effect : Type :=
| execFile_afplay (vol : Number) (soundPath : string)
| ui_setStatus (channel : string) (text : option string)
| setTimeout (callback : Effect) (ms : Z)
| ui_notify (message : Message) (kind : string)
| ui_prompt (title : string) (placeholder : Number).

Record Result (A : Type) : Type := mkResult
  { outcome : Completion A;
    state : State;
    trace : list Effect }.
Arguments mkResult {A} outcome state trace.
Arguments outcome {A} r.
Arguments state {A} r.
Arguments trace {A} r.

(** A computation reads the environment, threads the module state, and
    either completes normally or throws; the state reached and the effects
    issued so far survive a throw. *)
Definition M (A : Type) : Type := Env -> State -> Result A.

Definition ret {A} (a : A) : M A :=
  fun _ st => mkResult (Normal a) st [].

Definition bind {A B} (m : M A) (k : A -> M B) : M B :=
  fun env st =>
    let r := m env st in
    match outcome r with
    | Normal a =>
        let r' := k a env (state r) in
        mkResult (outcome r') (state r') (trace r ++ trace r')
    | Throw e => mkResult (Throw e) (state r) (trace r)
    end.

Definition throw {A} (e : Exn) : M A :=
  fun _ st => mkResult (Throw e) st [].

Definition try_catch {A} (body : M A) (handler : Exn -> M A) : M A :=
  fun env st =>
    let r := body env st in
    match outcome r with
    | Normal a => r
    | Throw e =>
        let r' := handler e env (state r) in
        mkResult (outcome r') (state r') (trace r ++ trace r')
    end.

Definition gets {A} (f : State -> A) : M A :=
  fun _ st => mkResult (Normal (f st)) st [].

Definition modify (f : State -> State) : M unit :=
  fun _ st => mkResult (Normal tt) (f st) [].

Definition asks {A} (f : Env -> A) : M A :=
  fun env st => mkResult (Normal (f env)) st [].

Definition lift {A} (f : Env -> Completion A) : M A :=
  fun env st => mkResult (f env) st [].

Definition emit (e : Effect) : M unit :=
  fun _ st => mkResult (Normal tt) st [e].

Declare Scope js_scope.
Delimit Scope js_scope with js.
Notation "'let*' x ':=' c1 'in' c2" := (bind c1 (fun x => c2))
  (at level 10, x name, c1 at level 100, c2 at level 200) : js_scope.
Notation "c1 ;; c2" := (bind c1 (fun _ => c2))
  (at level 100, c2 at level 200, right associativity) : js_scope.
Local Open Scope js_scope.

(** ** Helpers *)

(** [path.join] of Node's POSIX implementation: the non-empty arguments
    are joined with a slash and the result is normalised.  A slash is one
    byte in UTF-8 and occurs in no longer sequence, so splitting the bytes
    at slashes splits the string at its slashes. *)

(** The pieces of [s] between slashes. *)
Fixpoint segments (s : string) : list string :=
  match s with
  | EmptyString => [""]
  | String c rest =>
      if Ascii.eqb c "/" then "" :: segments rest
      else match segments rest with
           | seg :: more => String c seg :: more
           | [] => [String c ""]
           end
  end.

(** One segment of [normalizeString]; [stack] holds the segments kept so
    far, the last one first.  Empty and [.] segments are dropped, [..]
    removes the segment before it, or is kept when there is none to remove
    and the path is relative. *)
Definition normalizeStep (allowAboveRoot : bool) (stack : list string) (seg : string)
  : list string :=
  if bool_decide (seg = "") || bool_decide (seg = ".") then stack
  else if bool_decide (seg = "..") then
    match stack with
    | top :: below =>
        if bool_decide (top = "..")
        then (if allowAboveRoot then ".." :: stack else stack)
        else below
    | [] => if allowAboveRoot then [".."] else []
    end
  else seg :: stack.

Definition normalizeString (path : string) (allowAboveRoot : bool) : string :=
  String.concat "/" (rev (fold_left (normalizeStep allowAboveRoot) (segments path) [])).

Fixpoint endsWithSlash (s : string) : bool :=
  match s with
  | EmptyString => false
  | String c EmptyString => Ascii.eqb c "/"
  | String _ rest => endsWithSlash rest
  end.

(** [path.normalize] *)
Definition normalize (path : string) : string :=
  if bool_decide (path = "") then "."
  else
    let isAbsolute := startsWith path "/" in
    let trailingSeparator := endsWithSlash path in
    let body := normalizeString path (negb isAbsolute) in
    if bool_decide (body = "") then
      if isAbsolute then "/" else if trailingSeparator then "./" else "."
    else
      (if isAbsolute then "/" else "") +:+ body +:+
      (if trailingSeparator then "/" else "").

Definition path_join (parts : list string) : string :=
  match filter (fun p => p ≠ "") parts with
  | [] => "."
  | joined => normalize (String.concat "/" joined)
  end.

Definition loadManifest (packName : string) : M (option PackManifest.t) :=
  let* dir := asks PACKS_DIR in
  let manifestPath := path_join [dir; packName; "manifest.json"] in
  try_catch
    (let* text := lift (fun env => readFileSync env manifestPath) in
     lift (fun env => JSON_parse env text))
    (fun _ => ret None).

(** [l[i]] for a number [i]: the element at [i] when [i] is an integer
    within the array, [undefined] otherwise. *)
Definition array_get {A} (l : list A) (i : Number) : option A :=
  match i with
  | Num q =>
      if Qeq_bool q (inject_Z (Qfloor q)) && (0 <=? Qfloor q)%Z
      then l !! Z.to_nat (Qfloor q)
      else None
  | _ => None
  end.

(** The [candidates] of [pickSound]; [lastFile] is [None] when
    [lastPlayed[category]] is [undefined]. *)
Definition candidates (sounds : list SoundEntry) (lastFile : option string)
  : list SoundEntry :=
  if (1 <? length sounds)%nat
  then filter (fun s => Some (file s) ≠ lastFile) sounds
  else sounds.

(** [Math.floor(Math.random() * n)] for the draw [rnd] and an array
    length [n]: the product of the two numbers is rounded to binary64
    before it is floored.  (An array length is below [2^32], hence itself a
    binary64 value.) *)
Definition randomIndex (rnd : Q) (n : nat) : Number :=
  Math_floor (toDouble (rnd * inject_Z (Z.of_nat n))).

Definition pickSound (category : Category) : M (option SoundEntry) :=
  let* pack := gets currentPack in
  let* manifest := loadManifest pack in
  match manifest with
  | None => ret None
  | Some manifest =>
      match PackManifest.categories manifest !! key category with
      | None => ret None
      | Some entry =>
          let sounds := PackManifest.sounds entry in
          if (length sounds =? 0)%nat then ret None else
          let* lastFile := gets (fun st => lastPlayed st !! key category) in
          let candidates := candidates sounds lastFile in
          let* rnd := asks Math_random in
          match array_get candidates (randomIndex rnd (length candidates)) with
          | None => throw TypeError
          | Some pick =>
              modify (fun st =>
                set_lastPlayed (<[key category := file pick]> (lastPlayed st)) st) ;;
              ret (Some pick)
          end
      end
  end.

Definition playSound (category : Category) : M (option string) :=
  let* isMuted := gets muted in
  let* isMacos := asks IS_MACOS in
  if isMuted || negb isMacos then ret None else
  let* sound := pickSound category in
  match sound with
  | None => ret None
  | Some sound =>
      let* dir := asks PACKS_DIR in
      let* pack := gets currentPack in
      let soundPath := path_join [dir; pack; "sounds"; file sound] in
      let* present := asks (fun env => existsSync env soundPath) in
      if negb present then ret None else
      let* vol := gets volume in
      emit (execFile_afplay vol soundPath) ;;
      ret (Some (line sound))
  end.

Definition checkAnnoyed : M bool :=
  let* now := asks Date_now in
  modify (fun st =>
    set_promptTimestamps
      (filter (fun t => (now - t < ANNOYED_WINDOW_MS)%Z) (promptTimestamps st)) st) ;;
  modify (fun st => set_promptTimestamps (promptTimestamps st ++ [now]) st) ;;
  let* n := gets (fun st => length (promptTimestamps st)) in
  ret (ANNOYED_THRESHOLD <=? n)%nat.

Definition syncPackToModel (ctx_model : option Model.t) : M unit :=
  let newPack := packForModel ctx_model in
  let* pack := gets currentPack in
  if bool_decide (newPack ≠ pack) then
    modify (set_currentPack newPack) ;;
    modify (set_lastPlayed ∅)
  else ret tt.

Definition packEmoji : M string :=
  let* pack := gets currentPack in
  ret (if bool_decide (pack = "peasant") then "🏰" else "🪓").

(** ** Extension: the handlers registered with the host *)

Definition quoted (s : string) : string :=
  let q := String (ascii_of_nat 34) "" in q +:+ s +:+ q.

(** [ctx.ui.setStatus("wc3", text); setTimeout(() => ctx.ui.setStatus("wc3", undefined), ms)] *)
Definition showStatus (text : string) (ms : Z) : M unit :=
  emit (ui_setStatus "wc3" (Some text)) ;;
  emit (setTimeout (ui_setStatus "wc3" None) ms).

(** [if (line) { ... }]: [null] and the empty string are falsy. *)
Definition whenLine (line : option string) (k : string -> M unit) : M unit :=
  match line with
  | Some l => if bool_decide (l = "") then ret tt else k l
  | None => ret tt
  end.

Definition on_model_select (event_model : option Model.t) : M unit :=
  let newPack := packForModel event_model in
  let* pack := gets currentPack in
  if bool_decide (newPack ≠ pack) then
    modify (set_currentPack newPack) ;;
    modify (set_lastPlayed ∅) ;;
    let* pack := gets currentPack in
    let* manifest := loadManifest pack in
    let name := default pack (PackManifest.display_name <$> manifest) in
    let* emoji := packEmoji in
    showStatus (emoji +:+ " Switched to " +:+ name) 3000
  else ret tt.

Definition on_session_start (ctx_model : option Model.t) : M unit :=
  syncPackToModel ctx_model ;;
  let* line := playSound Greeting in
  whenLine line (fun line =>
    let* emoji := packEmoji in
    showStatus (emoji +:+ " " +:+ quoted line) 3000).

Definition on_agent_start (ctx_model : option Model.t) : M unit :=
  syncPackToModel ctx_model ;;
  let* isAnnoyed := checkAnnoyed in
  if isAnnoyed then
    let* line := playSound Annoyed in
    whenLine line (fun line => showStatus ("😤 " +:+ quoted line) 3000)
  else
    let* line := playSound Acknowledge in
    whenLine line (fun line => showStatus ("⚔️ " +:+ quoted line) 3000).

Definition on_agent_end : M unit :=
  let* line := playSound Complete in
  whenLine line (fun line => showStatus ("✅ " +:+ quoted line) 4000).

Definition on_tool_result (event_isError : bool) : M unit :=
  if event_isError then
    let* line := playSound Error in
    whenLine line (fun line => showStatus ("💀 " +:+ quoted line) 3000)
  else ret tt.

(** [/wc3-mute] and the [ctrl+shift+m] shortcut share this body. *)
Definition toggleMute : M unit :=
  modify (fun st => set_muted (negb (muted st)) st) ;;
  let* isMuted := gets muted in
  emit (ui_notify (if isMuted then SoundsMuted else SoundsUnmuted) "info").

(** [!isNaN(v) && v >= 0 && v <= 1] *)
Definition volumeAccepted (v : Number) : bool :=
  negb (isNaN v) && num_leb (Num 0) v && num_leb v (Num 1).

(** [isNaN(v) || v < 0 || v > 1] *)
Definition volumeRejected (v : Number) : bool :=
  isNaN v || num_ltb v (Num 0) || num_ltb (Num 1) v.

Definition applyVolume (v : Number) : M unit :=
  modify (set_volume v) ;;
  let* vol := gets volume in
  emit (ui_notify (VolumeSet vol) "info") ;;
  playSound Greeting ;;
  ret tt.

(** The [/wc3-volume] handler, run to completion: the awaited prompt is
    answered by [ui_input] of the environment.  An empty [args] is falsy. *)
Definition wc3_volume (args : string) : M unit :=
  if negb (bool_decide (args = "")) && volumeAccepted (parseFloat args)
  then applyVolume (parseFloat args)
  else
    let* vol := gets volume in
    emit (ui_prompt "Volume (0.0–1.0):" vol) ;;
    let* input := asks ui_input in
    match input with
    | None => ret tt
    | Some input =>
        let v := parseFloat input in
        if volumeRejected v then emit (ui_notify InvalidVolume "error")
        else applyVolume v
    end.

Inductive Event : Type :=
| model_select (event_model : option Model.t)
| session_start (ctx_model : option Model.t)
| agent_start (ctx_model : option Model.t)
| agent_end
| tool_result (event_isError : bool)
| command_wc3_mute
| command_wc3_volume (args : string)
| shortcut_ctrl_shift_m.

Definition handle (ev : Event) : M unit :=
  match ev with
  | model_select m => on_model_select m
  | session_start m => on_session_start m
  | agent_start m => on_agent_start m
  | agent_end => on_agent_end
  | tool_result e => on_tool_result e
  | command_wc3_mute => toggleMute
  | command_wc3_volume args => wc3_volume args
  | shortcut_ctrl_shift_m => toggleMute
  end.

(** ** Derived notions used in the statements *)

(** The manifest [loadManifest] yields in [env] ([None] is [null]); it does
    not depend on the module state. *)
Definition loaded (env : Env) (packName : string) : option PackManifest.t :=
  match outcome (loadManifest packName env initialState) with
  | Normal m => m
  | Throw _ => None
  end.

(** [mentions m w]: the lower-cased [id] or [provider] of [m] contains [w]. *)
Definition mentions (m : Model.t) (w : string) : Prop :=
  (exists pre post, toLowerCase (orEmpty (Model.id m)) = pre +:+ w +:+ post) \/
  (exists pre post, toLowerCase (orEmpty (Model.provider m)) = pre +:+ w +:+ post).

(** The trace holds no request to the audio player. *)
Definition noPlayback (tr : list Effect) : Prop :=
  forall vol soundPath, execFile_afplay vol soundPath ∉ tr.

(** Every key of [lastPlayed] in [st] is still a key in [st']. *)
Definition keepsKeys (st st' : State) : Prop :=
  dom (lastPlayed st) ⊆ dom (lastPlayed st').

(** Only [lastPlayed] may differ between [st] and [st']. *)
Definition onlyLastPlayed (st st' : State) : Prop :=
  exists m, st' = set_lastPlayed m st.

(** [preserves R m]: running [m] relates the state before to the state
    after by [R], however [m] ends. *)
Definition preserves {A} (R : State -> State -> Prop) (m : M A) : Prop :=
  forall env st, R st (state (m env st)).

(** ** Sample data *)

Definition peonManifest : PackManifest.t :=
  {| PackManifest.name := "peon";
     PackManifest.display_name := "Orc Peon";
     PackManifest.categories :=
       {[ "greeting" := PackManifest.Category
            [ mkSoundEntry "PeonReady1.wav" "Ready to work?";
              mkSoundEntry "PeonWhat1.wav" "Yes?" ];
          "error" := PackManifest.Category
            [ mkSoundEntry "PeonAngry4.wav" "Me not that kind of orc!" ] ]} |}.

(** A pack whose greeting list names one file twice. *)
Definition echoManifest : PackManifest.t :=
  {| PackManifest.name := "peon";
     PackManifest.display_name := "Orc Peon";
     PackManifest.categories :=
       {[ "greeting" := PackManifest.Category
            [ mkSoundEntry "PeonReady1.wav" "Ready to work?";
              mkSoundEntry "PeonReady1.wav" "Ready to work!" ] ]} |}.

(** A macOS host whose [peon] pack is [manifest]; of the sound files only
    those listed in [assets] exist. *)
Definition hostWith (manifest : PackManifest.t) (assets : list string)
    (now : Z) (input : option string) : Env :=
  {| PACKS_DIR := "/ext/packs";
     IS_MACOS := true;
     readFileSync := fun p =>
       if bool_decide (p = "/ext/packs/peon/manifest.json")
       then Normal "{...}" else Throw (FsError "ENOENT");
     JSON_parse := fun text =>
       if bool_decide (text = "{...}")
       then Normal (Some manifest) else Throw SyntaxError;
     existsSync := fun p =>
       bool_decide (p ∈ map (fun f => "/ext/packs/peon/sounds/" +:+ f) assets);
     Date_now := now;
     Math_random := 0;
     Math_random_binary64 := binary64_zero;
     ui_input := input |}.

Definition peonHost : Env :=
  hostWith peonManifest ["PeonReady1.wav"; "PeonWhat1.wav"; "PeonAngry4.wav"] 0 None.

(** The same pack with no sound file on disk. *)
Definition bareHost : Env := hostWith peonManifest [] 0 None.

(** A host without any pack directory. *)
Definition emptyHost : Env :=
  {| PACKS_DIR := "/ext/packs";
     IS_MACOS := true;
     readFileSync := fun _ => Throw (FsError "ENOENT");
     JSON_parse := fun _ => Throw SyntaxError;
     existsSync := fun _ => false;
     Date_now := 0;
     Math_random := 0;
     Math_random_binary64 := binary64_zero;
     ui_input := None |}.

(** A host whose manifest file is not a JSON document. *)
Definition garbledHost : Env :=
  {| PACKS_DIR := "/ext/packs";
     IS_MACOS := true;
     readFileSync := fun _ => Normal "{";
     JSON_parse := fun _ => Throw SyntaxError;
     existsSync := fun _ => false;
     Date_now := 0;
     Math_random := 0;
     Math_random_binary64 := binary64_zero;
     ui_input := None |}.

(** The module state after the greeting [PeonReady1.wav] was picked. *)
Definition playedReady : State :=
  set_lastPlayed {[ "greeting" := "PeonReady1.wav" ]} initialState.

(** The module state whose last greeting is a file the pack no longer has. *)
Definition playedGone : State :=
  set_lastPlayed {[ "greeting" := "PeonGone.wav" ]} initialState.

Definition echoHost : Env := hostWith echoManifest ["PeonReady1.wav"] 0 None.

(** The host at clock reading [now]. *)
Definition atTime (now : Z) : Env := hostWith peonManifest [] now None.

(** The host whose prompt is answered by [input]. *)
Definition promptHost (input : option string) : Env :=
  hostWith peonManifest ["PeonReady1.wav"; "PeonWhat1.wav"] 0 input.

Definition claudeModel : Model.t := Model.Build None (Some "claude-3-opus") None.
Definition codexModel : Model.t := Model.Build None (Some "gpt-5-codex") None.
Definition anthropicModel : Model.t := Model.Build (Some "anthropic") None None.

(** The module state at full volume. *)
Definition loud : State := set_volume (Num 1) initialState.

(** ** The event loop

    The host delivers events one at a time; each handler runs against the
    world as it is at that moment.  A handler that throws rejects its
    promise and the next event finds the state it left. *)
Fixpoint run (events : list (Event * Env)) (st : State) : State * list Effect :=
  match events with
  | [] => (st, [])
  | (ev, env) :: rest =>
      let r := handle ev env st in
      let '(st', tr) := run rest (state r) in
      (st', trace r ++ tr)
  end.

(** ** Further notions used in the statements *)

(** A finite number between 0 and 1. *)
Definition volumeInRange (v : Number) : Prop :=
  exists q, v = Num q /\ (0 <= q)%Q /\ (q <= 1)%Q.

(** The keys of the categories some handler plays. *)
Definition playedKeys : gset string :=
  {[ "greeting"; "acknowledge"; "complete"; "error"; "annoyed" ]}.

Definition wellFormed (st : State) : Prop :=
  volumeInRange (volume st) /\
  (currentPack st = "peon" \/ currentPack st = "peasant") /\
  dom (lastPlayed st) ⊆ playedKeys.

Definition isPlayback (e : Effect) : bool :=
  match e with execFile_afplay _ _ => true | _ => false end.

(** The number of requests to the audio player in a trace. *)
Definition playbacks (tr : list Effect) : nat :=
  length (filter (fun e => isPlayback e = true) tr).

(** A request to the player, if any, carries a volume between 0 and 1. *)
Definition safeEffect (e : Effect) : Prop :=
  forall vol soundPath, e = execFile_afplay vol soundPath -> volumeInRange vol.

(** [hoare P I E m]: in an environment satisfying [P], [m] keeps the
    state property [I] and issues only effects satisfying [E], however it
    ends. *)
Definition hoare {A} (P : Env -> Prop) (I : State -> Prop) (E : Effect -> Prop)
    (m : M A) : Prop :=
  forall env st, P env -> I st ->
    I (state (m env st)) /\ Forall E (trace (m env st)).

(** [atMost n m]: [m] issues at most [n] requests to the player. *)
Definition atMost {A} (n : nat) (m : M A) : Prop :=
  forall env st, (playbacks (trace (m env st)) <= n)%nat.

(** [throwsOnly P I X m]: in an environment satisfying [P], [m] keeps the
    state property [I], and an exception it ends with satisfies [X]. *)
Definition throwsOnly {A} (P : Env -> Prop) (I : State -> Prop) (X : Exn -> Prop)
    (m : M A) : Prop :=
  forall env st, P env -> I st ->
    I (state (m env st)) /\ forall e, outcome (m env st) = Throw e -> X e.


(** The environment [env] with the next random draw being the binary64
    value [rnd]. *)
Definition drawing (rnd : Q) (Hrnd : binary64 rnd) (env : Env) : Env :=
  {| PACKS_DIR := PACKS_DIR env;
     IS_MACOS := IS_MACOS env;
     readFileSync := readFileSync env;
     JSON_parse := JSON_parse env;
     existsSync := existsSync env;
     Date_now := Date_now env;
     Math_random := rnd;
     Math_random_binary64 := Hrnd;
     ui_input := ui_input env |}.

(** A file name that [path.join] appends unchanged: not empty, not ".",
    not "..", and without a slash. *)
Definition plainName (f : string) : Prop :=
  f ≠ "" /\ f ≠ "." /\ f ≠ ".." /\ includes f "/" = false.

(** A draw that selects index [i] of an array of length [n]: the
    multiple of [2^-40] next below [(i + 1/2) / n]. *)
Definition drawFor (i n : nat) : Q :=
  ((2 * Z.of_nat i + 1) * 2 ^ 39 / Z.of_nat n)%Z # 2 ^ 40.

(** The two effects of a status line: the text is shown, its removal is
    scheduled after [ms] milliseconds. *)
Definition statusFor (text : string) (ms : Z) : list Effect :=
  [ ui_setStatus "wc3" (Some text); setTimeout (ui_setStatus "wc3" None) ms ].

(** [thenStatus p text ms] is the result of a handler whose call of
    [playSound] gave the result [p]: the state and the effects of [p],
    followed by the status [text l] when [p] returned a non-empty line
    [l]; an exception of [p] is the handler's. *)
Definition thenStatus (p : Result (option string)) (text : string -> string) (ms : Z)
  : Result unit :=
  mkResult
    (match outcome p with Normal _ => Normal tt | Throw e => Throw e end)
    (state p)
    (trace p ++
     match outcome p with
     | Normal (Some l) => if bool_decide (l = "") then [] else statusFor (text l) ms
     | _ => []
     end).

(** A pack with sounds for [acknowledge] and [annoyed], the files on disk. *)
Definition chatManifest : PackManifest.t :=
  {| PackManifest.name := "peon";
     PackManifest.display_name := "Orc Peon";
     PackManifest.categories :=
       {[ "acknowledge" := PackManifest.Category
            [ mkSoundEntry "PeonYes1.wav" "I can do that." ];
          "annoyed" := PackManifest.Category
            [ mkSoundEntry "PeonAngry1.wav" "Whaaat?" ] ]} |}.

Definition chatHost : Env :=
  hostWith chatManifest ["PeonYes1.wav"; "PeonAngry1.wav"] 0 None.

(** A pack with one sound for [complete], its file on disk. *)
Definition workManifest : PackManifest.t :=
  {| PackManifest.name := "peon";
     PackManifest.display_name := "Orc Peon";
     PackManifest.categories :=
       {[ "complete" := PackManifest.Category
            [ mkSoundEntry "PeonYes3.wav" "Work, work." ] ]} |}.

Definition workHost : Env := hostWith workManifest ["PeonYes3.wav"] 0 None.

(** A host that is not macOS. *)
Definition linuxHost : Env :=
  {| PACKS_DIR := "/ext/packs";
     IS_MACOS := false;
     readFileSync := readFileSync peonHost;
     JSON_parse := JSON_parse peonHost;
     existsSync := existsSync peonHost;
     Date_now := 0;
     Math_random := 0;
     Math_random_binary64 := binary64_zero;
     ui_input := None |}.

(** * Properties *)

(** ** Facts about substring search *)

Lemma startsWith_spec s p :
  startsWith s p = true <-> exists post, s = p +:+ post.
Proof.
  revert s; induction p as [|a p IH]; intros s; simpl.
  - split; [intros _; by exists s | done].
  - destruct s as [|b s]; simpl.
    + split; [done | intros [post H]; discriminate].
    + rewrite andb_true_iff, Ascii.eqb_eq, IH. split.
      * intros [-> [post ->]]. by exists post.
      * intros [post H]. injection H as -> ->. eauto.
Qed.

Lemma includes_spec s p :
  includes s p = true <-> exists pre post, s = pre +:+ p +:+ post.
Proof.
  induction s as [|b s IH]; simpl.
  - rewrite orb_false_r, startsWith_spec. split.
    + intros [post H]. by exists "", post.
    + intros [pre [post H]]. destruct pre; simpl in H; [eauto | discriminate].
  - rewrite orb_true_iff, startsWith_spec, IH. split.
    + intros [[post H] | [pre [post H]]].
      * by exists "", post.
      * exists (String b pre), post. simpl. by rewrite H.
    + intros [pre [post H]]. destruct pre as [|c pre]; simpl in H.
      * left; eauto.
      * right. injection H as -> ->. eauto.
Qed.

Lemma mentions_includes m w :
  mentions m w <->
  includes (toLowerCase (orEmpty (Model.id m))) w
  || includes (toLowerCase (orEmpty (Model.provider m))) w = true.
Proof. unfold mentions. by rewrite orb_true_iff, !includes_spec. Qed.

Lemma packForModel_codex m :
  mentions m "codex" -> packForModel (Some m) = "peasant".
Proof.
  intros H%mentions_includes. unfold packForModel. by rewrite H.
Qed.

Lemma packForModel_no_codex m :
  ~ mentions m "codex" -> packForModel (Some m) = "peon".
Proof.
  intros H. unfold packForModel.
  destruct (includes _ "codex" || includes _ "codex") eqn:E.
  - exfalso. apply H. by apply mentions_includes.
  - by destruct (includes _ "claude" || _)%bool.
Qed.

(** ** Number parsing *)

Lemma dropPrefix_length s p r :
  dropPrefix s p = Some r -> String.length s = (String.length p + String.length r)%nat.
Proof.
  revert s; induction p as [|a p IH]; intros [|b s]; simpl; try done.
  - by intros [= <-].
  - by intros [= <-].
  - destruct (Ascii.eqb a b); [|done]. intros H. by rewrite (IH _ H).
Qed.

Lemma dropWhiteSpace1_shorter s r :
  dropWhiteSpace1 s = Some r -> (String.length r < String.length s)%nat.
Proof.
  unfold dropWhiteSpace1.
  assert (Hws : Forall (fun w => (0 < String.length w)%nat) whiteSpace).
  { unfold whiteSpace. simpl. repeat (constructor; [simpl; lia|]). constructor. }
  induction Hws as [|w ws Hw _ IH]; simpl; [done|].
  destruct (dropPrefix s w) as [r'|] eqn:Hdrop; [|done].
  intros [= <-]. apply dropPrefix_length in Hdrop. lia.
Qed.

(** The fuel of [trimStart] suffices: what it returns starts with no
    white space. *)
Lemma trimStart_done fuel s :
  (String.length s <= fuel)%nat -> dropWhiteSpace1 (trimStart fuel s) = None.
Proof.
  revert s; induction fuel as [|fuel IH]; intros s Hlen; simpl.
  - destruct s; [done | simpl in Hlen; lia].
  - destruct (dropWhiteSpace1 s) as [r|] eqn:Hdrop; [|done].
    apply IH. apply dropWhiteSpace1_shorter in Hdrop. lia.
Qed.

(** Rounding to binary64 is visible at the ends of the accepted range and
    of the format. *)
Example parseFloat_samples :
  parseFloat "0.1" = Num (3602879701896397 # 36028797018963968) /\
  parseFloat "  .5e1 or so" = Num 5 /\
  parseFloat "5." = Num 5 /\
  parseFloat "." = NaN /\
  parseFloat "- 1" = NaN /\
  parseFloat "-Infinity" = NegInfinity /\
  parseFloat "1.00000000000000001" = Num 1 /\
  parseFloat "-1e-400" = Num 0 /\
  parseFloat "2e-324" = Num 0 /\
  parseFloat "1e400" = PosInfinity /\
  parseFloat "1.7976931348623159e308" = PosInfinity.
Proof. by vm_compute. Qed.

(** ** Running computations *)

Arguments loadManifest : simpl never.
Arguments pickSound : simpl never.
Arguments playSound : simpl never.
Arguments checkAnnoyed : simpl never.
Arguments syncPackToModel : simpl never.
Arguments parseFloat : simpl never.

Ltac run_monad :=
  unfold bind, ret, throw, try_catch, gets, modify, asks, lift, emit in *;
  simpl in *.

Lemma bind_run {A B} (m : M A) (k : A -> M B) env st a st1 tr1 :
  m env st = mkResult (Normal a) st1 tr1 ->
  bind m k env st =
  mkResult (outcome (k a env st1)) (state (k a env st1)) (tr1 ++ trace (k a env st1)).
Proof. intros H. unfold bind. by rewrite H. Qed.

Lemma bind_throw {A B} (m : M A) (k : A -> M B) env st e st1 tr1 :
  m env st = mkResult (Throw e) st1 tr1 ->
  bind m k env st = mkResult (Throw e) st1 tr1.
Proof. intros H. unfold bind. by rewrite H. Qed.

Lemma result_eta {A} (r : Result A) :
  r = mkResult (outcome r) (state r) (trace r).
Proof. by destruct r. Qed.

(** ** Manifest access *)

Lemma loadManifest_run packName env st :
  loadManifest packName env st = mkResult (Normal (loaded env packName)) st [].
Proof.
  unfold loaded, loadManifest. run_monad.
  destruct (readFileSync env _) as [text|e]; simpl; [|done].
  by destruct (JSON_parse env text).
Qed.

Lemma loaded_read_failure env packName e :
  readFileSync env (path_join [PACKS_DIR env; packName; "manifest.json"]) = Throw e ->
  loaded env packName = None.
Proof. intros H. unfold loaded, loadManifest. run_monad. by rewrite H. Qed.

Lemma loaded_parse_failure env packName text e :
  readFileSync env (path_join [PACKS_DIR env; packName; "manifest.json"]) = Normal text ->
  JSON_parse env text = Throw e ->
  loaded env packName = None.
Proof.
  intros H1 H2. unfold loaded, loadManifest. run_monad. rewrite H1. simpl. by rewrite H2.
Qed.

(** ** Selection *)

(** The pick of [pickSound] among the sounds of a category. *)
Lemma pickSound_run category env st :
  pickSound category env st =
  match loaded env (currentPack st) with
  | None => mkResult (Normal None) st []
  | Some manifest =>
      match PackManifest.categories manifest !! key category with
      | None => mkResult (Normal None) st []
      | Some entry =>
          let sounds := PackManifest.sounds entry in
          if (length sounds =? 0)%nat then mkResult (Normal None) st [] else
          let cands := candidates sounds (lastPlayed st !! key category) in
          match array_get cands (randomIndex (Math_random env) (length cands)) with
          | None => mkResult (Throw TypeError) st []
          | Some pick =>
              mkResult (Normal (Some pick))
                (set_lastPlayed (<[key category := file pick]> (lastPlayed st)) st) []
          end
      end
  end.
Proof.
  unfold pickSound.
  rewrite (bind_run _ _ env st (currentPack st) st []) by reflexivity.
  rewrite (bind_run _ _ env st _ st [] (loadManifest_run _ env st)).
  destruct (loaded env (currentPack st)) as [manifest|]; [|done].
  destruct (PackManifest.categories manifest !! key category) as [entry|]; [|done].
  simpl. destruct (length (PackManifest.sounds entry) =? 0)%nat; [done|].
  run_monad.
  by destruct (array_get _ _).
Qed.

(** The three ways a call of [pickSound] ends: nothing to pick, state
    untouched; an out-of-bounds pick, state untouched; or an entry, whose
    file is recorded under the category.  No effect is issued. *)
Lemma pickSound_cases category env st :
  pickSound category env st = mkResult (Normal None) st [] \/
  pickSound category env st = mkResult (Throw TypeError) st [] \/
  exists e, pickSound category env st =
    mkResult (Normal (Some e))
             (set_lastPlayed (<[key category := file e]> (lastPlayed st)) st) [].
Proof.
  rewrite pickSound_run.
  destruct (loaded env (currentPack st)) as [manifest|]; [|by left].
  destruct (PackManifest.categories manifest !! key category) as [entry|]; [|by left].
  simpl. destruct (length (PackManifest.sounds entry) =? 0)%nat; [by left|].
  destruct (array_get _ _) as [pick|]; [|by right; left].
  right; right. by exists pick.
Qed.

Lemma pickSound_some_state category env st e st' tr :
  pickSound category env st = mkResult (Normal (Some e)) st' tr ->
  st' = set_lastPlayed (<[key category := file e]> (lastPlayed st)) st /\ tr = [].
Proof.
  destruct (pickSound_cases category env st) as [H|[H|[e' H]]]; rewrite H; [done..|].
  by intros [= -> <- <-].
Qed.

(** ** Facts about rounding to binary64 *)

Section Rounding.
Local Open Scope Q_scope.

Lemma pow2_pos e : 0 < pow2 e.
Proof. apply Qpower_0_lt. reflexivity. Qed.

Lemma pow2_add a b : pow2 (a + b) == pow2 a * pow2 b.
Proof. apply Qpower_plus. discriminate. Qed.

Lemma pow2_le a b : (a <= b)%Z -> pow2 a <= pow2 b.
Proof. intros H. apply Qpower_le_compat_l; [done | discriminate]. Qed.

Lemma pow2_lt a b : (a < b)%Z -> pow2 a < pow2 b.
Proof. intros H. apply Qpower_lt_compat_l; [done | reflexivity]. Qed.

Lemma pow2_lt_inv a b : pow2 a < pow2 b -> (a < b)%Z.
Proof. intros H. apply (Qpower_lt_compat_l_inv 2); [done | reflexivity]. Qed.

Lemma pow2_Z k : (0 <= k)%Z -> pow2 k == inject_Z (2 ^ k).
Proof. intros H. unfold pow2. by rewrite (Zpower_Qpower 2 k H). Qed.

Lemma pow2_sub_Z x y :
  (0 <= x)%Z -> (0 <= y)%Z -> pow2 (x - y) == inject_Z (2 ^ x) / inject_Z (2 ^ y).
Proof.
  intros Hx Hy. unfold Z.sub. rewrite pow2_add. unfold pow2 at 2.
  rewrite Qpower_opp. fold (pow2 y). by rewrite (pow2_Z x Hx), (pow2_Z y Hy).
Qed.

Lemma Q_as_div (q : Q) : q == inject_Z (Qnum q) / inject_Z (Zpos (Qden q)).
Proof. destruct q as [n d]. apply Qmake_Qdiv. Qed.

Lemma Qpos_neq0 (d : Q) : 0 < d -> ~ d == 0.
Proof. intros Hd E. rewrite E in Hd. by apply Qlt_irrefl in Hd. Qed.

Lemma div_lt_div (a b c d : Q) :
  0 < b -> 0 < d -> a * d < c * b -> a / b < c / d.
Proof.
  intros Hb Hd H.
  apply Qlt_shift_div_r; [done|].
  assert (E : c / d * b == c * b / d) by (field; by apply Qpos_neq0).
  rewrite E. by apply Qlt_shift_div_l.
Qed.

Lemma Zlog2_bounds n : (0 < n)%Z -> (2 ^ Z.log2 n <= n < 2 ^ (Z.log2 n + 1))%Z.
Proof. intros H. pose proof (Z.log2_spec n H) as H'. unfold Z.succ in H'. lia. Qed.

Lemma frac_gt (A B : Z) (q : Q) :
  (0 < B)%Z -> (A * Zpos (Qden q) < Qnum q * B)%Z -> inject_Z A / inject_Z B < q.
Proof.
  intros HB H. destruct q as [n d]. cbn [Qnum Qden] in H. rewrite (Qmake_Qdiv n d).
  apply div_lt_div.
  - by rewrite <- (Zlt_Qlt 0).
  - by rewrite <- (Zlt_Qlt 0).
  - by rewrite <- !inject_Z_mult, <- Zlt_Qlt.
Qed.

Lemma frac_lt (A B : Z) (q : Q) :
  (0 < B)%Z -> (Qnum q * B < A * Zpos (Qden q))%Z -> q < inject_Z A / inject_Z B.
Proof.
  intros HB H. destruct q as [n d]. cbn [Qnum Qden] in H. rewrite (Qmake_Qdiv n d).
  apply div_lt_div.
  - by rewrite <- (Zlt_Qlt 0).
  - by rewrite <- (Zlt_Qlt 0).
  - by rewrite <- !inject_Z_mult, <- Zlt_Qlt.
Qed.

(** The estimate from the two bit lengths is off by less than one. *)
Lemma ilog2_estimate q :
  0 < q ->
  let e0 := (Z.log2 (Qnum q) - Z.log2 (Zpos (Qden q)))%Z in
  pow2 (e0 - 1) < q /\ q < pow2 (e0 + 1).
Proof.
  intros Hq e0.
  assert (Hn : (0 < Qnum q)%Z) by (destruct q as [n d]; unfold Qlt in Hq; simpl in *; lia).
  pose proof (Zlog2_bounds _ Hn) as [Hn1 Hn2].
  pose proof (Zlog2_bounds (Zpos (Qden q)) (Pos2Z.is_pos _)) as [Hd1 Hd2].
  pose proof (Z.log2_nonneg (Qnum q)) as Ha.
  pose proof (Z.log2_nonneg (Zpos (Qden q))) as Hb.
  set (a := Z.log2 (Qnum q)) in *. set (b := Z.log2 (Zpos (Qden q))) in *.
  assert (HA : (0 < 2 ^ a)%Z) by (apply Z.pow_pos_nonneg; lia).
  assert (HB : (0 < 2 ^ b)%Z) by (apply Z.pow_pos_nonneg; lia).
  assert (HA1 : (0 < 2 ^ (a + 1))%Z) by (apply Z.pow_pos_nonneg; lia).
  assert (HB1 : (0 < 2 ^ (b + 1))%Z) by (apply Z.pow_pos_nonneg; lia).
  split.
  - replace (e0 - 1)%Z with (a - (b + 1))%Z by (unfold e0; lia).
    rewrite pow2_sub_Z by lia. apply frac_gt; [done | nia].
  - replace (e0 + 1)%Z with ((a + 1) - b)%Z by (unfold e0; lia).
    rewrite pow2_sub_Z by lia. apply frac_lt; [done | nia].
Qed.

Lemma ilog2_spec q : 0 < q -> pow2 (ilog2 q) <= q /\ q < pow2 (ilog2 q + 1).
Proof.
  intros Hq. destruct (ilog2_estimate q Hq) as [Hlo Hhi]. unfold ilog2.
  set (e0 := (Z.log2 (Qnum q) - Z.log2 (Zpos (Qden q)))%Z) in *.
  destruct (Qle_bool (pow2 e0) q) eqn:Htest.
  - split; [by apply Qle_bool_iff | done].
  - split; [by apply Qlt_le_weak|].
    replace (e0 - 1 + 1)%Z with e0 by lia.
    apply Qnot_le_lt. intros Hle. apply Qle_bool_iff in Hle. congruence.
Qed.

Lemma roundHalfEven_spec z :
  inject_Z (roundHalfEven z) <= z + (1 # 2) /\
  z - (1 # 2) <= inject_Z (roundHalfEven z) /\
  (0 <= z -> (0 <= roundHalfEven z)%Z).
Proof.
  unfold roundHalfEven.
  pose proof (Qfloor_le z) as Hlo. pose proof (Qlt_floor z) as Hhi.
  rewrite inject_Z_plus in Hhi. change (inject_Z 1) with 1 in Hhi.
  assert (Hnn : 0 <= z -> (0 <= Qfloor z)%Z).
  { intros Hz. change 0%Z with (Qfloor 0). by apply Qfloor_resp_le. }
  destruct (Qcompare_spec (z - inject_Z (Qfloor z)) (1 # 2)) as [E|L|G].
  - destruct (Z.even (Qfloor z)).
    + split; [lra|]. split; [lra|done].
    + rewrite inject_Z_plus. change (inject_Z 1) with 1.
      split; [lra|]. split; [lra|]. intros Hz. specialize (Hnn Hz). lia.
  - split; [lra|]. split; [lra|done].
  - rewrite inject_Z_plus. change (inject_Z 1) with 1.
    split; [lra|]. split; [lra|]. intros Hz. specialize (Hnn Hz). lia.
Qed.

Lemma pow2_half e : pow2 (e - 52) * (1 # 2) == pow2 (e - 53).
Proof.
  replace (e - 52)%Z with ((e - 53) + 1)%Z by lia. rewrite pow2_add.
  change (pow2 1) with 2. field.
Qed.

Lemma pow2_double e : pow2 (e + 1) == 2 * pow2 e.
Proof. rewrite pow2_add. change (pow2 1) with 2. field. Qed.

Lemma ilog2_lt q k : 0 < q -> q < pow2 k -> (ilog2 q < k)%Z.
Proof.
  intros Hq Hk. destruct (ilog2_spec q Hq) as [Hlo _].
  apply pow2_lt_inv. by apply Qle_lt_trans with q.
Qed.

(** Rounding a positive rational below [2^1023] gives a finite number within
    half a unit in the last place. *)
Lemma roundPositive_spec y :
  0 < y -> y < pow2 1023 ->
  exists r e,
    roundPositive y = Num r /\
    (pow2 e <= y \/ e = (-1022)%Z) /\ (e <= 1022)%Z /\ (ilog2 y <= e)%Z /\
    0 <= r /\ r <= y + pow2 (e - 53) /\ y - pow2 (e - 53) <= r.
Proof.
  intros Hy Hbig. unfold roundPositive.
  set (e := Z.max (ilog2 y) (-1022)).
  set (ulp := pow2 (e - 52)).
  set (R := roundHalfEven (y / ulp)).
  assert (Hulp : 0 < ulp) by apply pow2_pos.
  assert (Hz : y / ulp * ulp == y) by (field; by apply Qpos_neq0).
  assert (Hznn : 0 <= y / ulp).
  { apply Qle_shift_div_l; [done|]. rewrite Qmult_0_l. by apply Qlt_le_weak. }
  destruct (roundHalfEven_spec (y / ulp)) as (Hup & Hdown & Hnn).
  fold R in Hup, Hdown, Hnn. specialize (Hnn Hznn).
  assert (He : (e <= 1022)%Z).
  { pose proof (ilog2_lt y 1023 Hy Hbig). unfold e. lia. }
  assert (Hhalf := pow2_half e). fold ulp in Hhalf.
  assert (Hr1 : inject_Z R * ulp <= y + pow2 (e - 53)).
  { apply Qle_trans with ((y / ulp + (1 # 2)) * ulp).
    - apply Qmult_le_compat_r; [done | by apply Qlt_le_weak].
    - assert (E : (y / ulp + (1 # 2)) * ulp == y / ulp * ulp + ulp * (1 # 2)) by ring.
      rewrite E, Hz, Hhalf. apply Qle_refl. }
  assert (Hr2 : y - pow2 (e - 53) <= inject_Z R * ulp).
  { apply Qle_trans with ((y / ulp - (1 # 2)) * ulp).
    - assert (E : (y / ulp - (1 # 2)) * ulp == y / ulp * ulp - ulp * (1 # 2)) by ring.
      rewrite E, Hz, Hhalf. apply Qle_refl.
    - apply Qmult_le_compat_r; [done | by apply Qlt_le_weak]. }
  assert (Hr0 : 0 <= inject_Z R * ulp).
  { apply Qmult_le_0_compat; [|by apply Qlt_le_weak].
    by rewrite <- (Zle_Qle 0). }
  assert (Hfin : Qle_bool (pow2 1024) (inject_Z R * ulp) = false).
  { destruct (Qle_bool _ _) eqn:Hle; [|done]. apply Qle_bool_iff in Hle.
    pose proof (pow2_le (e - 53) 1023 ltac:(lia)) as H1.
    pose proof (pow2_double 1023) as H2. change (1023 + 1)%Z with 1024%Z in H2.
    lra. }
  rewrite Hfin. exists (Qred (inject_Z R * ulp)), e.
  split; [done|]. rewrite Qred_correct.
  split.
  { unfold e. destruct (Z.max_spec (ilog2 y) (-1022)) as [[_ ->] | [_ ->]].
    - by right.
    - left. by apply ilog2_spec. }
  split; [done|]. split; [unfold e; lia|]. done.
Qed.

(** The largest binary64 value below one is [1 - 2^-53]. *)
Lemma binary64_below_one x : binary64 x -> x < 1 -> x <= 1 - pow2 (-53).
Proof.
  intros (m & e & Hm & He & Hx) Hlt.
  destruct (Z_le_gt_dec (-53) e) as [Hbig | Hsmall].
  - (* x * 2^53 is an integer below 2^53 *)
    assert (E : x == inject_Z (m * 2 ^ (e + 53)) * pow2 (-53)).
    { rewrite Hx, inject_Z_mult, <- pow2_Z by lia.
      rewrite <- Qmult_assoc, <- pow2_add.
      by replace (e + 53 + -53)%Z with e by lia. }
    set (K := (m * 2 ^ (e + 53))%Z) in *.
    assert (HK : (K < 2 ^ 53)%Z).
    { rewrite Zlt_Qlt, <- pow2_Z by lia.
      assert (Hc := pow2_pos (-53)).
      assert (E1 : pow2 53 * pow2 (-53) == 1) by (by rewrite <- pow2_add).
      apply Qmult_lt_r with (pow2 (-53)); [done|]. by rewrite <- E, E1. }
    assert (HK' : (K <= 2 ^ 53 - 1)%Z) by lia.
    rewrite Zle_Qle in HK'. rewrite E.
    assert (E1 : 1 - pow2 (-53) == inject_Z (2 ^ 53 - 1) * pow2 (-53)).
    { unfold Z.sub. rewrite inject_Z_plus, <- pow2_Z by lia.
      rewrite Qmult_plus_distr_l, <- pow2_add. change (pow2 (53 + -53)) with 1.
      change (inject_Z (- (1))) with (- (1)). ring. }
    rewrite E1. apply Qmult_le_compat_r; [done | apply Qlt_le_weak, pow2_pos].
  - (* x is below one half *)
    assert (Hm' : inject_Z m <= pow2 53).
    { rewrite pow2_Z by lia. rewrite <- Zle_Qle. lia. }
    assert (Hx' : x <= pow2 53 * pow2 (-54)).
    { rewrite Hx. apply Qle_trans with (pow2 53 * pow2 e).
      - apply Qmult_le_compat_r; [done | apply Qlt_le_weak, pow2_pos].
      - apply Qmult_le_l; [apply pow2_pos | apply pow2_le; lia]. }
    rewrite <- pow2_add in Hx'. change (pow2 (53 + -54)) with (1 # 2) in Hx'.
    assert (Hc : pow2 (-53) <= pow2 (-1)) by (apply pow2_le; lia).
    change (pow2 (-1)) with (1 # 2) in Hc. lra.
Qed.

Lemma array_get_index {A} (l : list A) (i : Z) :
  (0 <= i)%Z -> array_get l (Num (inject_Z i)) = l !! Z.to_nat i.
Proof.
  intros Hi. unfold array_get. rewrite Qfloor_Z.
  rewrite (proj2 (Qeq_bool_iff _ _) (Qeq_refl _)).
  by rewrite (proj2 (Z.leb_le 0 i) Hi).
Qed.

Lemma array_get_elem {A} (l : list A) i x : array_get l i = Some x -> x ∈ l.
Proof.
  unfold array_get. destruct i as [| | |q]; try done.
  destruct (_ && _); [|done]. apply list_elem_of_lookup_2.
Qed.

Lemma array_get_in_range {A} (l : list A) (i : Z) :
  (0 <= i < Z.of_nat (length l))%Z -> is_Some (array_get l (Num (inject_Z i))).
Proof.
  intros [Hlo Hhi]. rewrite array_get_index by done.
  apply lookup_lt_is_Some. lia.
Qed.

Lemma array_get_nil {A} i : array_get (@nil A) i = None.
Proof. unfold array_get. destruct i as [| | |q]; try done. by destruct (_ && _). Qed.

Lemma Qfloor_unique (r : Q) (i : Z) :
  inject_Z i <= r -> r < inject_Z i + 1 -> Qfloor r = i.
Proof.
  intros Hlo Hhi. pose proof (Qfloor_le r) as H1. pose proof (Qlt_floor r) as H2.
  rewrite inject_Z_plus in H2. change (inject_Z 1) with 1 in H2.
  assert (Ha : inject_Z (Qfloor r) < inject_Z (i + 1)).
  { rewrite inject_Z_plus. change (inject_Z 1) with 1. lra. }
  assert (Hb : inject_Z i < inject_Z (Qfloor r + 1)).
  { rewrite inject_Z_plus. change (inject_Z 1) with 1. lra. }
  rewrite <- Zlt_Qlt in Ha, Hb. lia.
Qed.

Lemma toDouble_positive y : 0 < y -> toDouble y = roundPositive y.
Proof. intros Hy. unfold toDouble. apply Qgt_alt in Hy. by rewrite Hy. Qed.

Lemma toDouble_zero y : y == 0 -> toDouble y = Num 0.
Proof. intros Hy. unfold toDouble. apply Qeq_alt in Hy. by rewrite Hy. Qed.

Lemma length_small (n : nat) : (Z.of_nat n < 2 ^ 32)%Z -> inject_Z (Z.of_nat n) < pow2 32.
Proof. intros H. rewrite pow2_Z by lia. by rewrite <- Zlt_Qlt. Qed.

(** The index computed at line 108 is an integer below the length, for every
    binary64 draw in [0, 1): the rounded product stays below the length. *)
Lemma randomIndex_range rnd n :
  binary64 rnd -> 0 <= rnd -> rnd < 1 -> (0 < n)%nat -> (Z.of_nat n < 2 ^ 32)%Z ->
  exists i, randomIndex rnd n = Num (inject_Z i) /\ (0 <= i < Z.of_nat n)%Z.
Proof.
  intros Hbin Hlo Hhi Hn Hlen. unfold randomIndex.
  set (N := inject_Z (Z.of_nat n)).
  assert (HN : 1 <= N).
  { unfold N. change 1 with (inject_Z 1). rewrite <- Zle_Qle. lia. }
  assert (HN32 := length_small n Hlen). fold N in HN32.
  destruct (Qle_lt_or_eq _ _ Hlo) as [Hpos | Hzero].
  - assert (Hy : 0 < rnd * N).
    { apply Qmult_lt_0_compat; [done | lra]. }
    pose proof (binary64_below_one rnd Hbin Hhi) as Hmax.
    set (c := pow2 (-53)) in *.
    assert (Hc : 0 < c) by apply pow2_pos.
    assert (Hy1 : rnd * N <= (1 - c) * N).
    { apply Qmult_le_compat_r; [done | lra]. }
    assert (H32 : pow2 32 <= pow2 1023) by (apply pow2_le; lia).
    assert (E : (1 - c) * N == N - c * N) by ring.
    assert (HcN : 0 < c * N) by (apply Qmult_lt_0_compat; lra).
    assert (Hbig : rnd * N < pow2 1023).
    { lra. }
    rewrite (toDouble_positive _ Hy).
    destruct (roundPositive_spec _ Hy Hbig) as (r & e & -> & He & _ & _ & Hr0 & Hr1 & _).
    cbn [Math_floor]. exists (Qfloor r). split; [done|].
    assert (Hsmall : pow2 e < N).
    { destruct He as [He | ->]; [lra|].
      assert (pow2 (-1022) < pow2 0) by (apply pow2_lt; lia).
      change (pow2 0) with 1 in *. lra. }
    assert (Hulp : pow2 (e - 53) < c * N).
    { unfold Z.sub. rewrite pow2_add. fold c. rewrite (Qmult_comm c N).
      apply Qmult_lt_compat_r; done. }
    assert (Hr : r < N) by lra.
    split.
    + change 0%Z with (Qfloor 0). by apply Qfloor_resp_le.
    + rewrite Zlt_Qlt. fold N. pose proof (Qfloor_le r). lra.
  - assert (Hy : rnd * N == 0) by (rewrite <- Hzero; ring).
    rewrite (toDouble_zero _ Hy). exists 0%Z. split; [done | lia].
Qed.

Lemma drawFor_spec (i n : nat) :
  (i < n)%nat -> (Z.of_nat n < 2 ^ 32)%Z ->
  binary64 (drawFor i n) /\ 0 <= drawFor i n /\ drawFor i n < 1 /\
  randomIndex (drawFor i n) n = Num (inject_Z (Z.of_nat i)).
Proof.
  intros Hlt Hlen. unfold drawFor.
  set (a := ((2 * Z.of_nat i + 1) * 2 ^ 39)%Z).
  set (K := (a / Z.of_nat n)%Z).
  assert (Hn : (0 < Z.of_nat n)%Z) by lia.
  assert (Ha : (0 <= a)%Z) by (unfold a; lia).
  pose proof (Z.div_mod a (Z.of_nat n) ltac:(lia)) as Hdiv.
  pose proof (Z.mod_pos_bound a (Z.of_nat n) Hn) as Hmod.
  fold K in Hdiv.
  assert (HK1 : (K * Z.of_nat n <= a)%Z) by lia.
  assert (HK2 : (a < K * Z.of_nat n + Z.of_nat n)%Z) by lia.
  assert (HK0 : (2 ^ 7 <= K)%Z).
  { unfold K. apply Z.div_le_lower_bound; [done|]. unfold a. lia. }
  assert (HK3 : (K < 2 ^ 40)%Z).
  { unfold K. apply Z.div_lt_upper_bound; [done|]. unfold a. nia. }
  set (x := K # 2 ^ 40).
  assert (Ex : x == inject_Z K * (1 # 2 ^ 40)).
  { unfold x. rewrite (Qmake_Qdiv K). unfold Qdiv. apply Qmult_comp; [done|].
    reflexivity. }
  set (I := inject_Z (Z.of_nat i)).
  set (N := inject_Z (Z.of_nat n)).
  assert (HN32 := length_small n Hlen). fold N in HN32.
  assert (Q1 : inject_Z K * N <= (2 * I + 1) * inject_Z (2 ^ 39)).
  { unfold N, I. rewrite <- inject_Z_mult. rewrite Zle_Qle in HK1.
    eapply Qle_trans; [exact HK1|]. unfold a.
    rewrite inject_Z_mult, inject_Z_plus, inject_Z_mult. apply Qle_refl. }
  assert (Q2 : (2 * I + 1) * inject_Z (2 ^ 39) < inject_Z K * N + N).
  { unfold N, I. rewrite <- inject_Z_mult, <- inject_Z_plus. rewrite Zlt_Qlt in HK2.
    eapply Qle_lt_trans; [|exact HK2]. unfold a.
    rewrite inject_Z_mult, inject_Z_plus, inject_Z_mult. apply Qle_refl. }
  assert (Q0 : inject_Z (2 ^ 7) <= inject_Z K) by (by rewrite <- Zle_Qle).
  assert (Q3 : inject_Z K < inject_Z (2 ^ 40)) by (by rewrite <- Zlt_Qlt).
  assert (HI : 0 <= I) by (unfold I; rewrite <- (Zle_Qle 0); lia).
  assert (HIN : I + 1 <= N).
  { unfold I, N. change 1 with (inject_Z 1).
    rewrite <- inject_Z_plus, <- Zle_Qle. lia. }
  change (pow2 32) with (inject_Z (2 ^ 32)) in HN32.
  change (inject_Z (2 ^ 39)) with 549755813888 in *.
  change (inject_Z (2 ^ 40)) with 1099511627776 in *.
  change (inject_Z (2 ^ 32)) with 4294967296 in *.
  change (inject_Z (2 ^ 7)) with 128 in *.
  change (1 # 2 ^ 40) with (1 # 1099511627776) in *.
  split; [|split; [|split]].
  - exists K, (-40)%Z. split; [lia|]. split; [lia|]. rewrite Ex.
    apply Qmult_comp; [done|]. reflexivity.
  - lra.
  - lra.
  - unfold randomIndex. fold N.
    assert (Ey : x * N == inject_Z K * N * (1 # 1099511627776)) by (rewrite Ex; ring).
    set (y := x * N) in *. set (KN := inject_Z K * N) in *.
    assert (Hy : 0 < y).
    { rewrite Ey. unfold KN. apply Qmult_lt_0_compat; [|done].
      apply Qmult_lt_0_compat; lra. }
    assert (Hy32 : y < pow2 32).
    { change (pow2 32) with 4294967296. lra. }
    assert (Hbig : y < pow2 1023).
    { assert (pow2 32 <= pow2 1023) by (apply pow2_le; lia). lra. }
    rewrite (toDouble_positive _ Hy).
    destruct (roundPositive_spec _ Hy Hbig) as (r & e & -> & He & _ & _ & _ & Hr1 & Hr2).
    assert (He32 : (e < 32)%Z).
    { destruct He as [He | ->]; [|lia]. apply pow2_lt_inv. lra. }
    assert (Herr : pow2 (e - 53) <= pow2 (-22)) by (apply pow2_le; lia).
    change (pow2 (-22)) with (1 # 4194304) in Herr.
    cbn [Math_floor]. f_equal. f_equal. apply Qfloor_unique; fold I; lra.
Qed.

End Rounding.

Lemma candidates_subseteq sounds lastFile e :
  e ∈ candidates sounds lastFile -> e ∈ sounds.
Proof.
  unfold candidates. destruct (1 <? length sounds)%nat; [|done].
  by intros [_ ?]%list_elem_of_filter.
Qed.

Lemma candidates_avoid_last sounds lastFile e :
  (2 <= length sounds)%nat ->
  e ∈ candidates sounds lastFile -> lastFile ≠ Some (file e).
Proof.
  intros Hlen. unfold candidates.
  destruct (Nat.ltb_spec 1 (length sounds)) as [_|?]; [|lia].
  intros [? _]%list_elem_of_filter. congruence.
Qed.

Lemma candidates_singleton x lastFile : candidates [x] lastFile = [x].
Proof. reflexivity. Qed.

(** Two entries with different files make a list of length at least 2. *)
Lemma two_files_length (sounds : list SoundEntry) a b :
  a ∈ sounds -> b ∈ sounds -> file a ≠ file b -> (2 <= length sounds)%nat.
Proof.
  intros Ha Hb Hne. destruct sounds as [|x [|y l]]; simpl; [| |lia].
  - by apply elem_of_nil in Ha.
  - apply list_elem_of_singleton in Ha, Hb. congruence.
Qed.

(** With pairwise distinct files the filter drops at most one entry. *)
Lemma filter_last_length (sounds : list SoundEntry) lastFile :
  NoDup (file <$> sounds) ->
  (length sounds - 1 <= length (filter (fun s => Some (file s) ≠ lastFile) sounds))%nat.
Proof.
  induction sounds as [|s l IH]; simpl; [lia|].
  rewrite NoDup_cons. intros [Hs Hl].
  rewrite filter_cons. destruct (decide (Some (file s) ≠ lastFile)) as [_|Heq]; simpl.
  - specialize (IH Hl). lia.
  - apply dec_stable in Heq.
    assert (filter (fun s => Some (file s) ≠ lastFile) l = l) as ->; [|lia].
    clear IH Hl. induction l as [|t l IH]; [done|].
    rewrite fmap_cons, not_elem_of_cons in Hs. destruct Hs as [Hst Hs].
    rewrite filter_cons_True; [by rewrite IH|].
    rewrite <- Heq. congruence.
Qed.

Lemma filter_all_last (sounds : list SoundEntry) f :
  (forall s, s ∈ sounds -> file s = f) ->
  filter (fun s => Some (file s) ≠ Some f) sounds = [].
Proof.
  induction sounds as [|s l IH]; intros Hall; [done|].
  rewrite filter_cons_False.
  - apply IH. intros t Ht. apply Hall. by right.
  - intros Hne. apply Hne. f_equal. apply Hall. by left.
Qed.

Lemma filter_none_last (sounds : list SoundEntry) f :
  (forall s, s ∈ sounds -> file s ≠ f) ->
  filter (fun s => Some (file s) ≠ Some f) sounds = sounds.
Proof.
  induction sounds as [|s l IH]; intros Hall; [done|].
  rewrite filter_cons_True.
  - f_equal. apply IH. intros t Ht. apply Hall. by right.
  - intros [= Heq]. by apply (Hall s); [left|].
Qed.

(** C1.  Whenever [pickSound category] returns an entry [e], the manifest
    and the category are present and the sound list is non-empty, [e] is a
    member of that list, the only change to the state is that
    [lastPlayed[category]] now is [e.file], a list with two distinct files
    never yields the file [lastPlayed[category]] held before the call, and
    a one-entry list yields its entry. *)
Theorem pickSound_entry category env st e st' tr :
  pickSound category env st = mkResult (Normal (Some e)) st' tr ->
  exists manifest entry,
    loaded env (currentPack st) = Some manifest /\
    PackManifest.categories manifest !! key category = Some entry /\
    PackManifest.sounds entry ≠ [] /\
    e ∈ PackManifest.sounds entry /\
    st' = set_lastPlayed (<[key category := file e]> (lastPlayed st)) st /\
    lastPlayed st' !! key category = Some (file e) /\
    ((exists a b, a ∈ PackManifest.sounds entry /\ b ∈ PackManifest.sounds entry /\
                  file a ≠ file b) ->
     lastPlayed st !! key category ≠ Some (file e)) /\
    (forall x, PackManifest.sounds entry = [x] -> e = x).
Proof.
  rewrite pickSound_run.
  destruct (loaded env (currentPack st)) as [manifest|]; [|done].
  destruct (PackManifest.categories manifest !! key category) as [entry|] eqn:Hcat; [|done].
  simpl. destruct (Nat.eqb_spec (length (PackManifest.sounds entry)) 0) as [|Hlen]; [done|].
  destruct (array_get _ _) as [pick|] eqn:Hpick; [|done].
  intros [= -> <- <-]. apply array_get_elem in Hpick.
  exists manifest, entry. repeat split; try done.
  - intros Hnil. by rewrite Hnil in Hlen.
  - by eapply candidates_subseteq.
  - simpl. apply lookup_insert_eq.
  - intros (a & b & Ha & Hb & Hab).
    eapply candidates_avoid_last; [|exact Hpick]. exact (two_files_length _ a b Ha Hb Hab).
  - intros x Hx. rewrite Hx, candidates_singleton in Hpick.
    by apply list_elem_of_singleton in Hpick.
Qed.

Lemma pickSound_entry_witness :
  let e := mkSoundEntry "PeonWhat1.wav" "Yes?" in
  let st' := state (pickSound Greeting peonHost playedReady) in
  exists manifest entry,
    loaded peonHost (currentPack playedReady) = Some manifest /\
    PackManifest.categories manifest !! key Greeting = Some entry /\
    PackManifest.sounds entry ≠ [] /\
    e ∈ PackManifest.sounds entry /\
    st' = set_lastPlayed (<[key Greeting := file e]> (lastPlayed playedReady)) playedReady /\
    lastPlayed st' !! key Greeting = Some (file e) /\
    ((exists a b, a ∈ PackManifest.sounds entry /\ b ∈ PackManifest.sounds entry /\
                  file a ≠ file b) ->
     lastPlayed playedReady !! key Greeting ≠ Some (file e)) /\
    (forall x, PackManifest.sounds entry = [x] -> e = x).
Proof.
  intros e st'.
  apply (pickSound_entry Greeting peonHost playedReady e st' []).
  vm_compute. reflexivity.
Defined.

(** C9.  When the sound list has at least two entries and
    [lastPlayed[category]] is set to a file none of them has, the filter
    of [pickSound] removes nothing: the candidates are the whole list. *)
Theorem candidates_stale_last (st : State) category (sounds : list SoundEntry) f :
  (2 <= length sounds)%nat ->
  lastPlayed st !! key category = Some f ->
  (forall s, s ∈ sounds -> file s ≠ f) ->
  filter (fun s => Some (file s) ≠ lastPlayed st !! key category) sounds = sounds /\
  candidates sounds (lastPlayed st !! key category) = sounds.
Proof.
  intros Hlen -> Hnone. unfold candidates.
  rewrite filter_none_last by done.
  by destruct (1 <? length sounds)%nat.
Qed.

Lemma candidates_stale_last_witness :
  let sounds := [ mkSoundEntry "PeonReady1.wav" "Ready to work?";
                  mkSoundEntry "PeonWhat1.wav" "Yes?" ] in
  filter (fun s => Some (file s) ≠ lastPlayed playedGone !! key Greeting) sounds = sounds /\
  candidates sounds (lastPlayed playedGone !! key Greeting) = sounds.
Proof.
  intros sounds.
  apply (candidates_stale_last playedGone Greeting sounds "PeonGone.wav").
  - simpl. lia.
  - vm_compute. reflexivity.
  - intros s Hs. vm_compute in Hs.
    apply list_elem_of_In in Hs. simpl in Hs.
    destruct Hs as [<-|[<-|[]]]; discriminate.
Defined.

(** C10.  For a category whose list has at least two entries: when the
    file names are pairwise distinct, the list is an array (fewer than
    [2^32] entries) and the draw is a binary64 value in [[0, 1)], the
    filter drops at most one entry whatever [lastPlayed] holds, the
    candidates are non-empty and [pickSound] returns an entry, the product
    at line 108 being rounded before it is floored; when every entry
    carries the file recorded in [lastPlayed[category]], the candidates
    are empty, the indexed read is out of bounds and the property read on
    the result throws. *)
Theorem pickSound_in_bounds category env st manifest entry :
  loaded env (currentPack st) = Some manifest ->
  PackManifest.categories manifest !! key category = Some entry ->
  (2 <= length (PackManifest.sounds entry))%nat ->
  let sounds := PackManifest.sounds entry in
  let lastFile := lastPlayed st !! key category in
  (NoDup (file <$> sounds) ->
   (Z.of_nat (length sounds) < 2 ^ 32)%Z ->
   (0 <= Math_random env)%Q -> (Math_random env < 1)%Q ->
   (length sounds - 1 <= length (filter (fun s => Some (file s) ≠ lastFile) sounds))%nat /\
   candidates sounds lastFile ≠ [] /\
   exists e, outcome (pickSound category env st) = Normal (Some e)) /\
  (forall f, lastFile = Some f -> (forall s, s ∈ sounds -> file s = f) ->
   candidates sounds lastFile = [] /\
   array_get (candidates sounds lastFile)
     (randomIndex (Math_random env) (length (candidates sounds lastFile))) = None /\
   pickSound category env st = mkResult (Throw TypeError) st []).
Proof.
  intros Hman Hcat Hlen sounds lastFile.
  assert (Hcands : candidates sounds lastFile =
                   filter (fun s => Some (file s) ≠ lastFile) sounds).
  { unfold candidates. fold sounds in Hlen.
    destruct (Nat.ltb_spec 1 (length sounds)); [done | lia]. }
  assert (Hne0 : (length sounds =? 0)%nat = false).
  { apply Nat.eqb_neq. fold sounds in Hlen. lia. }
  split.
  - intros Hdup Harray Hlo Hhi.
    pose proof (filter_last_length sounds lastFile Hdup) as Hdrop.
    assert (Hpos : (0 < length (candidates sounds lastFile))%nat).
    { rewrite Hcands. fold sounds in Hlen. lia. }
    split; [done|]. split.
    + intros Hnil. rewrite Hnil in Hpos. simpl in Hpos. lia.
    + rewrite pickSound_run, Hman, Hcat. simpl. fold sounds. rewrite Hne0.
      fold lastFile.
      assert (Hsmall : (Z.of_nat (length (candidates sounds lastFile)) < 2 ^ 32)%Z).
      { rewrite Hcands.
        pose proof (length_filter (fun s => Some (file s) ≠ lastFile) sounds). lia. }
      destruct (randomIndex_range (Math_random env) (length (candidates sounds lastFile))
                  (Math_random_binary64 env) Hlo Hhi Hpos Hsmall) as (i & -> & Hi).
      destruct (array_get_in_range (candidates sounds lastFile) i Hi) as [pick Hpick].
      rewrite Hpick. by exists pick.
  - intros f Hlast Hall.
    assert (Hnil : candidates sounds lastFile = []).
    { rewrite Hcands, Hlast. by apply filter_all_last. }
    split; [done|]. split.
    + rewrite Hnil. apply array_get_nil.
    + rewrite pickSound_run, Hman, Hcat. simpl. fold sounds. rewrite Hne0.
      fold lastFile. by rewrite Hnil, array_get_nil.
Qed.

Lemma pickSound_in_bounds_witness :
  (exists e, outcome (pickSound Greeting peonHost playedReady) = Normal (Some e)) /\
  pickSound Greeting echoHost playedReady = mkResult (Throw TypeError) playedReady [].
Proof.
  split.
  - refine (proj2 (proj2 (proj1
      (pickSound_in_bounds Greeting peonHost playedReady peonManifest
         (PackManifest.Category
            [ mkSoundEntry "PeonReady1.wav" "Ready to work?";
              mkSoundEntry "PeonWhat1.wav" "Yes?" ]) _ _ _) _ _ _ _))).
    + vm_compute. reflexivity.
    + vm_compute. reflexivity.
    + simpl. lia.
    + simpl. apply NoDup_cons. split.
      * intros H. apply list_elem_of_singleton in H. discriminate.
      * apply NoDup_singleton.
    + vm_compute. reflexivity.
    + vm_compute. discriminate.
    + vm_compute. reflexivity.
  - refine (proj2 (proj2 (proj2
      (pickSound_in_bounds Greeting echoHost playedReady echoManifest
         (PackManifest.Category
            [ mkSoundEntry "PeonReady1.wav" "Ready to work?";
              mkSoundEntry "PeonReady1.wav" "Ready to work!" ]) _ _ _)
      "PeonReady1.wav" _ _))).
    + vm_compute. reflexivity.
    + vm_compute. reflexivity.
    + simpl. lia.
    + vm_compute. reflexivity.
    + intros s Hs. apply list_elem_of_In in Hs. simpl in Hs.
      destruct Hs as [<-|[<-|[]]]; reflexivity.
Defined.

(** The duplicate-file state of C10 is reached by an ordinary first call. *)
Example pickSound_duplicate_files :
  let first := pickSound Greeting echoHost initialState in
  outcome first = Normal (Some (mkSoundEntry "PeonReady1.wav" "Ready to work?")) /\
  state first = playedReady /\
  outcome (pickSound Greeting echoHost (state first)) = Throw TypeError.
Proof. vm_compute. repeat split; reflexivity. Qed.

(** C8.  [loadManifest] completes normally in every environment and state,
    touching neither; a failing read and a failing parse both give [null];
    and on [null] [pickSound] returns [null] and leaves the state,
    [lastPlayed] included, as it was. *)
Theorem loadManifest_never_raises packName env st :
  let manifestPath := path_join [PACKS_DIR env; packName; "manifest.json"] in
  (exists m, loadManifest packName env st = mkResult (Normal m) st []) /\
  (forall e, readFileSync env manifestPath = Throw e ->
     loadManifest packName env st = mkResult (Normal None) st []) /\
  (forall text e, readFileSync env manifestPath = Normal text ->
     JSON_parse env text = Throw e ->
     loadManifest packName env st = mkResult (Normal None) st []) /\
  (forall category,
     packName = currentPack st ->
     outcome (loadManifest packName env st) = Normal None ->
     pickSound category env st = mkResult (Normal None) st []).
Proof.
  intros manifestPath. rewrite loadManifest_run.
  split; [by eexists|]. split; [|split].
  - intros e He. by rewrite (loaded_read_failure _ _ _ He).
  - intros text e Ht He. by rewrite (loaded_parse_failure _ _ _ _ Ht He).
  - intros category -> [= Hnull]. by rewrite pickSound_run, Hnull.
Qed.

Lemma loadManifest_never_raises_witness :
  loadManifest "peon" emptyHost playedReady = mkResult (Normal None) playedReady [] /\
  loadManifest "peon" garbledHost playedReady = mkResult (Normal None) playedReady [] /\
  pickSound Greeting emptyHost playedReady = mkResult (Normal None) playedReady [].
Proof.
  split; [|split].
  - apply (proj1 (proj2 (loadManifest_never_raises "peon" emptyHost playedReady))
             (FsError "ENOENT")).
    reflexivity.
  - apply (proj1 (proj2 (proj2 (loadManifest_never_raises "peon" garbledHost playedReady)))
             "{" SyntaxError); reflexivity.
  - apply (proj2 (proj2 (proj2 (loadManifest_never_raises "peon" emptyHost playedReady)))
             Greeting); reflexivity.
Defined.

(** ** Playback *)

Lemma playSound_run category env st :
  playSound category env st =
  if muted st || negb (IS_MACOS env) then mkResult (Normal None) st [] else
  let r := pickSound category env st in
  match outcome r with
  | Throw e => mkResult (Throw e) (state r) []
  | Normal None => mkResult (Normal None) (state r) []
  | Normal (Some sound) =>
      let soundPath :=
        path_join [PACKS_DIR env; currentPack (state r); "sounds"; file sound] in
      if existsSync env soundPath
      then mkResult (Normal (Some (line sound))) (state r)
                    [execFile_afplay (volume (state r)) soundPath]
      else mkResult (Normal None) (state r) []
  end.
Proof.
  unfold playSound.
  rewrite (bind_run _ _ env st (muted st) st []) by reflexivity.
  rewrite (bind_run _ _ env st (IS_MACOS env) st []) by reflexivity.
  destruct (muted st || negb (IS_MACOS env)); [done|].
  destruct (pickSound_cases category env st) as [H|[H|[e H]]].
  - by rewrite (bind_run _ _ env st _ _ _ H), H.
  - by rewrite (bind_throw _ _ env st _ _ _ H), H.
  - rewrite (bind_run _ _ env st _ _ _ H), H. run_monad.
    by destruct (existsSync env _).
Qed.

(** [playSound] changes at most [lastPlayed], and only by recording a file
    under the category. *)
Lemma playSound_frame category env st :
  state (playSound category env st) = st \/
  exists f, state (playSound category env st) =
            set_lastPlayed (<[key category := f]> (lastPlayed st)) st.
Proof.
  rewrite playSound_run.
  destruct (muted st || negb (IS_MACOS env)); [by left|].
  destruct (pickSound_cases category env st) as [H|[H|[e H]]]; rewrite H; simpl.
  - by left.
  - by left.
  - right. exists (file e). by destruct (existsSync env _).
Qed.

(** C4.  While [muted] is true, [playSound] returns [null] for every
    category and changes nothing: the whole state, [lastPlayed] and
    [promptTimestamps] included, is as before, and no effect is issued. *)
Theorem playSound_muted category env st :
  muted st = true ->
  playSound category env st = mkResult (Normal None) st [] /\
  lastPlayed (state (playSound category env st)) = lastPlayed st /\
  promptTimestamps (state (playSound category env st)) = promptTimestamps st.
Proof.
  intros Hmuted. rewrite playSound_run, Hmuted. by simpl.
Qed.

Lemma playSound_muted_witness :
  let st := set_muted true playedReady in
  playSound Greeting peonHost st = mkResult (Normal None) st [] /\
  lastPlayed (state (playSound Greeting peonHost st)) = lastPlayed st /\
  promptTimestamps (state (playSound Greeting peonHost st)) = promptTimestamps st.
Proof.
  intros st. apply (playSound_muted Greeting peonHost st). reflexivity.
Defined.

(** C7, as the code has it.  With sound on and on macOS: when the file of
    the selected sound does not exist, [playSound] returns [null] and
    issues no effect, so no playback, as it does when no sound is found;
    but the selection is already recorded: [lastPlayed[category]] is the
    selected file, the rest of the state as before.  When no sound is
    found the state is unchanged. *)
Theorem playSound_missing_asset category env st :
  muted st = false ->
  IS_MACOS env = true ->
  (forall e st1,
     pickSound category env st = mkResult (Normal (Some e)) st1 [] ->
     existsSync env (path_join [PACKS_DIR env; currentPack st; "sounds"; file e]) = false ->
     outcome (playSound category env st) = Normal None /\
     trace (playSound category env st) = [] /\
     noPlayback (trace (playSound category env st)) /\
     state (playSound category env st) =
       set_lastPlayed (<[key category := file e]> (lastPlayed st)) st /\
     lastPlayed (state (playSound category env st)) !! key category = Some (file e)) /\
  (outcome (pickSound category env st) = Normal None ->
     playSound category env st = mkResult (Normal None) st []).
Proof.
  intros Hmuted Hmac. split.
  - intros e st1 Hpick Hmissing.
    destruct (pickSound_some_state _ _ _ _ _ _ Hpick) as [-> _].
    rewrite playSound_run, Hmuted, Hmac, Hpick. cbn in Hmissing |- *. rewrite Hmissing.
    split; [done|]. split; [done|]. split; [|split; [done|]].
    + intros vol soundPath. apply not_elem_of_nil.
    + apply lookup_insert_eq.
  - rewrite playSound_run, Hmuted, Hmac.
    destruct (pickSound_cases category env st) as [H|[H|[e H]]]; rewrite H; cbn;
      by intros [=].
Qed.

Lemma playSound_missing_asset_witness :
  let e := mkSoundEntry "PeonReady1.wav" "Ready to work?" in
  let r := playSound Greeting bareHost initialState in
  (outcome r = Normal None /\
   trace r = [] /\
   noPlayback (trace r) /\
   state r = set_lastPlayed (<[key Greeting := file e]> (lastPlayed initialState))
                            initialState /\
   lastPlayed (state r) !! key Greeting = Some (file e)) /\
  playSound Greeting emptyHost initialState = mkResult (Normal None) initialState [].
Proof.
  intros e r. split.
  - apply (proj1 (playSound_missing_asset Greeting bareHost initialState
                    eq_refl eq_refl)
             e (state (pickSound Greeting bareHost initialState))).
    + vm_compute. reflexivity.
    + vm_compute. reflexivity.
  - apply (proj2 (playSound_missing_asset Greeting emptyHost initialState
                    eq_refl eq_refl)).
    vm_compute. reflexivity.
Defined.

(** C7 as stated fails: with the pack's greeting file missing,
    [lastPlayed] after the call differs from [lastPlayed] after a call
    that found no sound. *)
Lemma playSound_missing_asset_counterexample :
  let e := mkSoundEntry "PeonReady1.wav" "Ready to work?" in
  muted initialState = false /\
  IS_MACOS bareHost = true /\
  outcome (pickSound Greeting bareHost initialState) = Normal (Some e) /\
  existsSync bareHost
    (path_join [PACKS_DIR bareHost; currentPack initialState; "sounds"; file e]) = false /\
  outcome (playSound Greeting bareHost initialState) = Normal None /\
  outcome (pickSound Greeting emptyHost initialState) = Normal None /\
  lastPlayed (state (playSound Greeting emptyHost initialState)) = ∅ /\
  lastPlayed (state (playSound Greeting bareHost initialState)) !! "greeting"
    = Some "PeonReady1.wav" /\
  lastPlayed (state (playSound Greeting bareHost initialState)) ≠
  lastPlayed (state (playSound Greeting emptyHost initialState)).
Proof.
  intros e. do 8 (split; [vm_compute; reflexivity|]).
  intros Heq. apply (f_equal (fun m => m !! "greeting")) in Heq.
  vm_compute in Heq. discriminate.
Qed.

(** ** Burst detection *)

Lemma checkAnnoyed_run env st :
  checkAnnoyed env st =
  let stamps :=
    filter (fun t => (Date_now env - t < ANNOYED_WINDOW_MS)%Z) (promptTimestamps st)
    ++ [Date_now env] in
  mkResult (Normal (ANNOYED_THRESHOLD <=? length stamps)%nat)
           (set_promptTimestamps stamps st) [].
Proof. reflexivity. Qed.

(** An entry exactly as old as the window is dropped as well. *)
Lemma checkAnnoyed_boundary :
  promptTimestamps (state (checkAnnoyed (atTime 10000)
    (set_promptTimestamps [0; 5000]%Z initialState))) = [5000; 10000]%Z.
Proof. reflexivity. Qed.

(** C2.  Every call of [checkAnnoyed] rewrites [promptTimestamps] to the
    entries younger than the window, in their order, followed by [now]:
    every entry older than 10000 ms is dropped; the result is true exactly
    when the new length is at least 3; the sequence changes on every call,
    whatever the result.  Calls at 0, 1000, 2000 answer false, false,
    true; calls at 0, 6000, 13000 answer false, false, false. *)
Theorem checkAnnoyed_window :
  (forall env st,
     let now := Date_now env in
     let kept := filter (fun t => (now - t < 10000)%Z) (promptTimestamps st) in
     let r := checkAnnoyed env st in
     (forall t, t ∈ promptTimestamps st -> (10000 < now - t)%Z -> t ∉ kept) /\
     (forall t, t ∈ promptTimestamps st -> (now - t < 10000)%Z -> t ∈ kept) /\
     kept `sublist_of` promptTimestamps st /\
     state r = set_promptTimestamps (kept ++ [now]) st /\
     trace r = [] /\
     (outcome r = Normal true \/ outcome r = Normal false) /\
     (outcome r = Normal true <-> (3 <= length (promptTimestamps (state r)))%nat) /\
     promptTimestamps (state r) ≠ promptTimestamps st) /\
  (let s1 := checkAnnoyed (atTime 0) initialState in
   let s2 := checkAnnoyed (atTime 1000) (state s1) in
   let s3 := checkAnnoyed (atTime 2000) (state s2) in
   outcome s1 = Normal false /\ outcome s2 = Normal false /\ outcome s3 = Normal true) /\
  (let s1 := checkAnnoyed (atTime 0) initialState in
   let s2 := checkAnnoyed (atTime 6000) (state s1) in
   let s3 := checkAnnoyed (atTime 13000) (state s2) in
   outcome s1 = Normal false /\ outcome s2 = Normal false /\ outcome s3 = Normal false /\
   promptTimestamps (state s3) = [6000; 13000]%Z).
Proof.
  split; [|split; [by vm_compute | by vm_compute]].
  intros env st now kept r. subst r. rewrite checkAnnoyed_run. cbn zeta.
  change ANNOYED_WINDOW_MS with 10000%Z. fold now. fold kept.
  cbn [state outcome trace promptTimestamps set_promptTimestamps].
  split; [|split; [|split; [|split; [|split; [|split; [|split]]]]]].
  - intros t _ Hold [Hyoung _]%list_elem_of_filter. lia.
  - intros t Hin Hyoung. by apply list_elem_of_filter.
  - apply sublist_filter.
  - done.
  - done.
  - destruct (ANNOYED_THRESHOLD <=? length (kept ++ [now]))%nat; [by left | by right].
  - change ANNOYED_THRESHOLD with 3%nat.
    destruct (Nat.leb_spec 3 (length (kept ++ [now]))) as [Hle|Hlt].
    + done.
    + split; [done | lia].
  - intros Heq.
    assert (Hfix : filter (fun t => (now - t < 10000)%Z) (kept ++ [now]) = kept ++ [now]).
    { rewrite filter_app. unfold kept at 1. rewrite list_filter_filter.
      rewrite filter_cons_True by lia. rewrite filter_nil. f_equal.
      apply list_filter_iff. intros t. tauto. }
    rewrite Heq in Hfix. fold kept in Hfix.
    apply (f_equal length) in Heq, Hfix. rewrite length_app in Heq. simpl in Heq. lia.
Qed.

Lemma checkAnnoyed_window_witness :
  let st := set_promptTimestamps [0; 6000]%Z initialState in
  let r := checkAnnoyed (atTime 13000) st in
  (0%Z ∉ filter (fun t => (13000 - t < 10000)%Z) (promptTimestamps st)) /\
  (6000%Z ∈ filter (fun t => (13000 - t < 10000)%Z) (promptTimestamps st)) /\
  (outcome r = Normal true <-> (3 <= length (promptTimestamps (state r)))%nat).
Proof.
  intros st r.
  destruct (proj1 checkAnnoyed_window (atTime 13000) st)
    as (Hdrop & Hkeep & _ & _ & _ & _ & Hiff & _).
  split; [|split].
  - apply Hdrop; [by left | simpl; lia].
  - apply Hkeep; [right; by left | simpl; lia].
  - exact Hiff.
Defined.

(** ** Frame rules for the monad *)

Section Preservation.
Variable R : State -> State -> Prop.
Hypothesis R_refl : forall st, R st st.
Hypothesis R_trans : forall st1 st2 st3, R st1 st2 -> R st2 st3 -> R st1 st3.

Lemma preserves_ret {A} (a : A) : preserves R (ret a).
Proof. intros env st. apply R_refl. Qed.

Lemma preserves_throw {A} e : preserves R (@throw A e).
Proof. intros env st. apply R_refl. Qed.

Lemma preserves_gets {A} (f : State -> A) : preserves R (gets f).
Proof. intros env st. apply R_refl. Qed.

Lemma preserves_asks {A} (f : Env -> A) : preserves R (asks f).
Proof. intros env st. apply R_refl. Qed.

Lemma preserves_emit e : preserves R (emit e).
Proof. intros env st. apply R_refl. Qed.

Lemma preserves_modify f : (forall st, R st (f st)) -> preserves R (modify f).
Proof. intros Hf env st. apply Hf. Qed.

Lemma preserves_bind {A B} (m : M A) (k : A -> M B) :
  preserves R m -> (forall a, preserves R (k a)) -> preserves R (bind m k).
Proof.
  intros Hm Hk env st. unfold bind.
  specialize (Hm env st). destruct (outcome (m env st)) as [a|e]; simpl; [|done].
  eapply R_trans; [exact Hm | apply Hk].
Qed.

Lemma preserves_showStatus text ms : preserves R (showStatus text ms).
Proof. intros env st. apply R_refl. Qed.

Lemma preserves_packEmoji : preserves R packEmoji.
Proof. intros env st. apply R_refl. Qed.

Lemma preserves_whenLine line k :
  (forall l, preserves R (k l)) -> preserves R (whenLine line k).
Proof.
  intros Hk. unfold whenLine. destruct line as [l|]; [|apply preserves_ret].
  destruct (bool_decide (l = "")); [apply preserves_ret | apply Hk].
Qed.

Lemma preserves_loadManifest packName : preserves R (loadManifest packName).
Proof. intros env st. rewrite loadManifest_run. apply R_refl. Qed.
End Preservation.

Lemma keepsKeys_refl st : keepsKeys st st.
Proof. by unfold keepsKeys. Qed.

Lemma keepsKeys_trans st1 st2 st3 :
  keepsKeys st1 st2 -> keepsKeys st2 st3 -> keepsKeys st1 st3.
Proof. unfold keepsKeys. set_solver. Qed.

Lemma onlyLastPlayed_refl st : onlyLastPlayed st st.
Proof. exists (lastPlayed st). by destruct st. Qed.

Lemma onlyLastPlayed_trans st1 st2 st3 :
  onlyLastPlayed st1 st2 -> onlyLastPlayed st2 st3 -> onlyLastPlayed st1 st3.
Proof. intros [m1 ->] [m2 ->]. by exists m2. Qed.

Lemma playSound_keepsKeys category : preserves keepsKeys (playSound category).
Proof.
  intros env st. unfold keepsKeys.
  destruct (playSound_frame category env st) as [->|[f ->]]; [done|].
  simpl. rewrite dom_insert_L. set_solver.
Qed.

Lemma playSound_onlyLastPlayed category : preserves onlyLastPlayed (playSound category).
Proof.
  intros env st.
  destruct (playSound_frame category env st) as [->|[f ->]].
  - apply onlyLastPlayed_refl.
  - by eexists.
Qed.

Lemma checkAnnoyed_keepsKeys : preserves keepsKeys checkAnnoyed.
Proof. intros env st. rewrite checkAnnoyed_run. by unfold keepsKeys. Qed.

Lemma toggleMute_keepsKeys : preserves keepsKeys toggleMute.
Proof. intros env st. by unfold keepsKeys. Qed.

Lemma set_muted_keepsKeys b st : keepsKeys st (set_muted b st).
Proof. by unfold keepsKeys. Qed.

Lemma set_volume_keepsKeys v st : keepsKeys st (set_volume v st).
Proof. by unfold keepsKeys. Qed.

Create HintDb frame.
#[local] Hint Resolve playSound_keepsKeys playSound_onlyLastPlayed
  checkAnnoyed_keepsKeys toggleMute_keepsKeys
  set_muted_keepsKeys set_volume_keepsKeys : frame.

(** Decomposes a [preserves] goal along the structure of the computation,
    given reflexivity and transitivity of the relation; the leaves are
    looked up among the [frame] hints. *)
Ltac frame_step refl trans :=
  first
    [ solve [auto with frame nocore]
    | apply (preserves_ret _ refl)
    | apply (preserves_throw _ refl)
    | apply (preserves_gets _ refl)
    | apply (preserves_asks _ refl)
    | apply (preserves_emit _ refl)
    | apply (preserves_showStatus _ refl)
    | apply (preserves_packEmoji _ refl)
    | apply (preserves_loadManifest _ refl)
    | apply preserves_modify; intros ?; solve [auto with frame nocore]
    | apply (preserves_whenLine _ refl); intros ?
    | apply (preserves_bind _ trans); [|intros ?] ].

Ltac frame refl trans := repeat frame_step refl trans.

Lemma applyVolume_keepsKeys v : preserves keepsKeys (applyVolume v).
Proof. unfold applyVolume. frame keepsKeys_refl keepsKeys_trans. Qed.

Lemma wc3_volume_keepsKeys args : preserves keepsKeys (wc3_volume args).
Proof.
  unfold wc3_volume. destruct (_ && _); [apply applyVolume_keepsKeys|].
  frame keepsKeys_refl keepsKeys_trans.
  destruct a1 as [input|]; [|frame keepsKeys_refl keepsKeys_trans].
  destruct (volumeRejected _); [frame keepsKeys_refl keepsKeys_trans|].
  apply applyVolume_keepsKeys.
Qed.

Lemma on_agent_end_keepsKeys : preserves keepsKeys on_agent_end.
Proof. unfold on_agent_end. frame keepsKeys_refl keepsKeys_trans. Qed.

Lemma on_tool_result_keepsKeys isError : preserves keepsKeys (on_tool_result isError).
Proof.
  unfold on_tool_result. destruct isError; frame keepsKeys_refl keepsKeys_trans.
Qed.

(** What follows the pack synchronisation in the two handlers that run it. *)
Lemma after_sync_session_keepsKeys :
  preserves keepsKeys
    (let* line := playSound Greeting in
     whenLine line (fun line =>
       let* emoji := packEmoji in
       showStatus (emoji +:+ " " +:+ quoted line) 3000)).
Proof. frame keepsKeys_refl keepsKeys_trans. Qed.

Lemma after_sync_agent_keepsKeys :
  preserves keepsKeys
    (let* isAnnoyed := checkAnnoyed in
     if isAnnoyed then
       let* line := playSound Annoyed in
       whenLine line (fun line => showStatus ("😤 " +:+ quoted line) 3000)
     else
       let* line := playSound Acknowledge in
       whenLine line (fun line => showStatus ("⚔️ " +:+ quoted line) 3000)).
Proof.
  frame keepsKeys_refl keepsKeys_trans.
  destruct a; frame keepsKeys_refl keepsKeys_trans.
Qed.

(** ** Pack switch *)

Lemma syncPackToModel_same model env st :
  packForModel model = currentPack st ->
  syncPackToModel model env st = mkResult (Normal tt) st [].
Proof.
  intros Heq. unfold syncPackToModel. run_monad.
  by rewrite bool_decide_eq_false_2 by (intros H; by apply H).
Qed.

Lemma syncPackToModel_switch model env st :
  packForModel model ≠ currentPack st ->
  syncPackToModel model env st =
  mkResult (Normal tt) (set_lastPlayed ∅ (set_currentPack (packForModel model) st)) [].
Proof.
  intros Hne. unfold syncPackToModel. run_monad.
  by rewrite bool_decide_eq_true_2.
Qed.

Lemma on_model_select_same model env st :
  packForModel model = currentPack st ->
  on_model_select model env st = mkResult (Normal tt) st [].
Proof.
  intros Heq. unfold on_model_select. run_monad.
  by rewrite bool_decide_eq_false_2 by (intros H; by apply H).
Qed.

Lemma on_model_select_switch model env st :
  packForModel model ≠ currentPack st ->
  let newPack := packForModel model in
  let name := default newPack (PackManifest.display_name <$> loaded env newPack) in
  let emoji := if bool_decide (newPack = "peasant") then "🏰" else "🪓" in
  on_model_select model env st =
  mkResult (Normal tt) (set_lastPlayed ∅ (set_currentPack newPack st))
    [ ui_setStatus "wc3" (Some (emoji +:+ " Switched to " +:+ name));
      setTimeout (ui_setStatus "wc3" None) 3000 ].
Proof.
  intros Hne newPack name emoji. unfold on_model_select. fold newPack.
  rewrite (bind_run _ _ env st (currentPack st) st []) by reflexivity.
  rewrite bool_decide_eq_true_2 by done.
  set (st1 := set_lastPlayed ∅ (set_currentPack newPack st)).
  rewrite (bind_run _ _ env st tt (set_currentPack newPack st) []) by reflexivity.
  rewrite (bind_run _ _ env (set_currentPack newPack st) tt st1 []) by reflexivity.
  rewrite (bind_run _ _ env st1 newPack st1 []) by reflexivity.
  rewrite (bind_run _ _ env st1 _ st1 [] (loadManifest_run _ env st1)).
  reflexivity.
Qed.

(** C3.  A pack switch to the current pack, through [syncPackToModel] or
    the [model_select] handler, changes nothing; a switch to another pack
    sets [currentPack] to it and empties [lastPlayed], the rest of the
    state as before, and repeating it changes nothing more.  Nothing else
    clears [lastPlayed]: [pickSound], [playSound] and [checkAnnoyed] keep
    every key, and so does every handler unless it runs a switch to
    another pack. *)
Theorem pack_switch model env st :
  let newPackId := packForModel model in
  let switched := set_lastPlayed ∅ (set_currentPack newPackId st) in
  (newPackId = currentPack st ->
     syncPackToModel model env st = mkResult (Normal tt) st [] /\
     on_model_select model env st = mkResult (Normal tt) st []) /\
  (newPackId ≠ currentPack st ->
     state (syncPackToModel model env st) = switched /\
     state (on_model_select model env st) = switched /\
     currentPack switched = newPackId /\
     lastPlayed switched = ∅) /\
  (forall env',
     state (syncPackToModel model env' (state (syncPackToModel model env st))) =
       state (syncPackToModel model env st) /\
     state (on_model_select model env' (state (on_model_select model env st))) =
       state (on_model_select model env st)) /\
  (forall category,
     keepsKeys st (state (pickSound category env st)) /\
     keepsKeys st (state (playSound category env st))) /\
  keepsKeys st (state (checkAnnoyed env st)) /\
  (forall ev,
     keepsKeys st (state (handle ev env st)) \/
     exists m, (ev = model_select m \/ ev = session_start m \/ ev = agent_start m) /\
               packForModel m ≠ currentPack st).
Proof.
  intros newPackId switched.
  split; [|split; [|split; [|split; [|split]]]].
  - intros Heq. by rewrite (syncPackToModel_same model env st Heq),
                           (on_model_select_same model env st Heq).
  - intros Hne.
    rewrite (syncPackToModel_switch model env st Hne).
    by rewrite (on_model_select_switch model env st Hne).
  - intros env'. destruct (decide (newPackId = currentPack st)) as [Heq|Hne].
    + rewrite (syncPackToModel_same model env st Heq).
      rewrite (on_model_select_same model env st Heq). cbn [state].
      by rewrite (syncPackToModel_same model env' st Heq),
                 (on_model_select_same model env' st Heq).
    + rewrite (syncPackToModel_switch model env st Hne).
      rewrite (on_model_select_switch model env st Hne). cbn [state].
      by rewrite syncPackToModel_same, on_model_select_same.
  - intros category. split; [|apply playSound_keepsKeys].
    unfold keepsKeys.
    destruct (pickSound_cases category env st) as [H|[H|[e H]]]; rewrite H; [done..|].
    simpl. rewrite dom_insert_L. set_solver.
  - apply checkAnnoyed_keepsKeys.
  - intros [m|m|m| |isError| |args|]; cbn [handle].
    + destruct (decide (packForModel m = currentPack st)) as [Heq|Hne].
      * left. rewrite on_model_select_same by done. apply keepsKeys_refl.
      * right. exists m. auto.
    + destruct (decide (packForModel m = currentPack st)) as [Heq|Hne].
      * left. unfold on_session_start.
        rewrite (bind_run _ _ env st tt st [] (syncPackToModel_same m env st Heq)).
        apply after_sync_session_keepsKeys.
      * right. exists m. auto.
    + destruct (decide (packForModel m = currentPack st)) as [Heq|Hne].
      * left. unfold on_agent_start.
        rewrite (bind_run _ _ env st tt st [] (syncPackToModel_same m env st Heq)).
        apply after_sync_agent_keepsKeys.
      * right. exists m. auto.
    + left. apply on_agent_end_keepsKeys.
    + left. apply on_tool_result_keepsKeys.
    + left. apply toggleMute_keepsKeys.
    + left. apply wc3_volume_keepsKeys.
    + left. apply toggleMute_keepsKeys.
Qed.

Lemma pack_switch_witness :
  (syncPackToModel (Some claudeModel) peonHost playedReady =
     mkResult (Normal tt) playedReady [] /\
   on_model_select (Some claudeModel) peonHost playedReady =
     mkResult (Normal tt) playedReady []) /\
  (let switched := set_lastPlayed ∅ (set_currentPack "peasant" playedReady) in
   state (syncPackToModel (Some codexModel) peonHost playedReady) = switched /\
   state (on_model_select (Some codexModel) peonHost playedReady) = switched /\
   currentPack switched = "peasant" /\
   lastPlayed switched = ∅).
Proof.
  split.
  - apply (proj1 (pack_switch (Some claudeModel) peonHost playedReady)).
    reflexivity.
  - apply (proj1 (proj2 (pack_switch (Some codexModel) peonHost playedReady))).
    vm_compute. discriminate.
Defined.

(** ** Volume *)

Lemma volumeAccepted_spec v :
  volumeAccepted v = true <-> exists q, v = Num q /\ (0 <= q)%Q /\ (q <= 1)%Q.
Proof.
  unfold volumeAccepted. destruct v as [| | |q]; simpl.
  - split; [done | by intros (q & ? & _)].
  - split; [done | by intros (q & ? & _)].
  - split; [done | by intros (q & ? & _)].
  - rewrite andb_true_iff, !Qle_bool_iff. split.
    + intros [? ?]. by exists q.
    + by intros (q' & [= <-] & ? & ?).
Qed.

Lemma volumeRejected_spec v : volumeRejected v = negb (volumeAccepted v).
Proof.
  unfold volumeRejected, volumeAccepted. destruct v as [| | |q]; simpl; try done.
  by rewrite negb_andb.
Qed.

(** [playSound] issues at most one effect, the request to the player. *)
Lemma playSound_trace category env st :
  trace (playSound category env st) = [] \/
  exists vol soundPath, trace (playSound category env st) = [execFile_afplay vol soundPath].
Proof.
  rewrite playSound_run.
  destruct (muted st || negb (IS_MACOS env)); [by left|].
  destruct (pickSound_cases category env st) as [H|[H|[e H]]]; rewrite H; cbn;
    [by left..|].
  destruct (existsSync env _); [right; by eexists _, _ | by left].
Qed.

Lemma applyVolume_run v env st :
  applyVolume v env st =
  let r := playSound Greeting env (set_volume v st) in
  mkResult (match outcome r with Normal _ => Normal tt | Throw e => Throw e end)
           (state r) (ui_notify (VolumeSet v) "info" :: trace r).
Proof.
  unfold applyVolume.
  rewrite (bind_run _ _ env st tt (set_volume v st) []) by reflexivity.
  rewrite (bind_run _ _ env (set_volume v st) v (set_volume v st) []) by reflexivity.
  rewrite (bind_run _ _ env (set_volume v st) tt (set_volume v st)
             [ui_notify (VolumeSet v) "info"]) by reflexivity.
  unfold bind, ret. cbn zeta.
  destruct (outcome (playSound Greeting env (set_volume v st)));
    cbn [outcome state trace app]; [by rewrite app_nil_r | done].
Qed.

(** Setting the volume stores [v], announces it, and signals no error. *)
Lemma applyVolume_effect v env st :
  volume (state (applyVolume v env st)) = v /\
  onlyLastPlayed (set_volume v st) (state (applyVolume v env st)) /\
  head (trace (applyVolume v env st)) = Some (ui_notify (VolumeSet v) "info") /\
  (forall e, e ∈ trace (applyVolume v env st) ->
     e = ui_notify (VolumeSet v) "info" \/ exists vol soundPath, e = execFile_afplay vol soundPath).
Proof.
  rewrite applyVolume_run. cbn [state trace].
  pose proof (playSound_onlyLastPlayed Greeting env (set_volume v st)) as [m Hm].
  split; [by rewrite Hm|]. split; [by exists m|]. split; [done|].
  intros e [->|He]%elem_of_cons; [by left|]. right.
  destruct (playSound_trace Greeting env (set_volume v st)) as [Hnil|(vol & p & Hone)].
  - rewrite Hnil in He. by apply elem_of_nil in He.
  - rewrite Hone in He. apply list_elem_of_singleton in He. by exists vol, p.
Qed.

Lemma wc3_volume_inline args env st :
  args ≠ "" -> volumeAccepted (parseFloat args) = true ->
  wc3_volume args env st = applyVolume (parseFloat args) env st.
Proof.
  intros Hargs Hacc. unfold wc3_volume.
  by rewrite bool_decide_eq_false_2, Hacc.
Qed.

Lemma wc3_volume_prompted args env st :
  args = "" \/ volumeAccepted (parseFloat args) = false ->
  wc3_volume args env st =
  let prompt := ui_prompt "Volume (0.0–1.0):" (volume st) in
  match ui_input env with
  | None => mkResult (Normal tt) st [prompt]
  | Some input =>
      if volumeAccepted (parseFloat input)
      then
        let r := applyVolume (parseFloat input) env st in
        mkResult (outcome r) (state r) (prompt :: trace r)
      else mkResult (Normal tt) st [prompt; ui_notify InvalidVolume "error"]
  end.
Proof.
  intros Hcase. unfold wc3_volume.
  assert (negb (bool_decide (args = "")) && volumeAccepted (parseFloat args) = false)
    as ->.
  { destruct Hcase as [-> | ->]; [done | apply andb_false_r]. }
  rewrite (bind_run _ _ env st (volume st) st []) by reflexivity.
  rewrite (bind_run _ _ env st tt st [ui_prompt "Volume (0.0–1.0):" (volume st)])
    by reflexivity.
  rewrite (bind_run _ _ env st (ui_input env) st []) by reflexivity.
  destruct (ui_input env) as [input|]; [|done].
  rewrite volumeRejected_spec.
  by destruct (volumeAccepted (parseFloat input)).
Qed.

(** C6, as the code has it.  The [/wc3-volume] handler takes its input
    first from the inline argument and otherwise from a prompt.  An
    argument that is non-empty and parses to a number [v] with
    [0 <= v <= 1] is accepted: [volume] becomes [v], the new volume is
    announced, no prompt and no error are shown.  Any other argument is
    not rejected by itself: the handler opens the prompt.  A dismissed
    prompt ends the handler with the state unchanged and no error.  A
    prompt answer is accepted exactly when it parses to a number [v] with
    [0 <= v <= 1], and then [volume] becomes [v]; any other answer is
    rejected: the state is unchanged and an input error is shown.  So
    ["0.5"] is accepted, inline or at the prompt, setting [volume] to 0.5,
    and ["1.5"], ["-0.1"], ["abc"] answered at the prompt are rejected
    with the state unchanged. *)
Theorem wc3_volume_accepts :
  (forall args env st,
     let r := wc3_volume args env st in
     let prompt := ui_prompt "Volume (0.0–1.0):" (volume st) in
     let inputError := ui_notify InvalidVolume "error" in
     (args ≠ "" -> volumeAccepted (parseFloat args) = true ->
        volume (state r) = parseFloat args /\
        head (trace r) = Some (ui_notify (VolumeSet (parseFloat args)) "info") /\
        (prompt ∉ trace r) /\
        (inputError ∉ trace r)) /\
     (args = "" \/ volumeAccepted (parseFloat args) = false ->
        head (trace r) = Some prompt /\
        (ui_input env = None -> r = mkResult (Normal tt) st [prompt]) /\
        (forall input, ui_input env = Some input ->
           (volumeAccepted (parseFloat input) = true ->
              volume (state r) = parseFloat input /\
              (ui_notify (VolumeSet (parseFloat input)) "info" ∈ trace r) /\
              (inputError ∉ trace r)) /\
           (volumeAccepted (parseFloat input) = false ->
              r = mkResult (Normal tt) st [prompt; inputError])))) /\
  (forall v, volumeAccepted v = true <->
             exists q, v = Num q /\ (0 <= q)%Q /\ (q <= 1)%Q) /\
  (parseFloat "0.5" = Num (1 # 2) /\
   volume (state (wc3_volume "0.5" (promptHost None) loud)) = Num (1 # 2) /\
   volume (state (wc3_volume "" (promptHost (Some "0.5")) loud)) = Num (1 # 2)) /\
  (forall bad, bad ∈ ["1.5"; "-0.1"; "abc"] ->
     volumeAccepted (parseFloat bad) = false /\
     wc3_volume "" (promptHost (Some bad)) loud =
       mkResult (Normal tt) loud
         [ui_prompt "Volume (0.0–1.0):" (Num 1); ui_notify InvalidVolume "error"]).
Proof.
  split; [|split; [apply volumeAccepted_spec|split]].
  - intros args env st r prompt inputError. split.
    + intros Hargs Hacc. subst r. rewrite (wc3_volume_inline _ _ _ Hargs Hacc).
      destruct (applyVolume_effect (parseFloat args) env st) as (Hvol & _ & Hhead & Htr).
      split; [done|]. split; [done|].
      split; intros [?|(? & ? & ?)]%Htr; discriminate.
    + intros Hcase. subst r. rewrite (wc3_volume_prompted _ _ _ Hcase). cbn zeta.
      fold prompt. fold inputError.
      destruct (ui_input env) as [input|].
      * destruct (applyVolume_effect (parseFloat input) env st)
          as (Hvol & _ & Hhead & Htr).
        destruct (volumeAccepted (parseFloat input)) eqn:Hacc.
        -- split; [done|]. split; [done|]. intros ? [= <-].
           split; [|intros ?; congruence].
           intros _. cbn [state trace]. split; [done|]. split.
           ++ right. destruct (trace (applyVolume (parseFloat input) env st)); [done|].
              injection Hhead as ->. by left.
           ++ intros [?|[?|(? & ? & ?)]%Htr]%elem_of_cons; discriminate.
        -- split; [done|]. split; [done|]. intros ? [= <-].
           split; [intros ?; congruence | done].
      * split; [done|]. split; [done|]. by intros ?.
  - by vm_compute.
  - intros bad Hbad. apply list_elem_of_In in Hbad. simpl in Hbad.
    destruct Hbad as [<-|[<-|[<-|[]]]]; by vm_compute.
Qed.

Lemma wc3_volume_accepts_witness :
  volume (state (wc3_volume "0.25" peonHost loud)) = parseFloat "0.25" /\
  wc3_volume "1.5" (promptHost None) loud =
    mkResult (Normal tt) loud [ui_prompt "Volume (0.0–1.0):" (Num 1)] /\
  volume (state (wc3_volume "" (promptHost (Some "0.75")) loud)) = parseFloat "0.75" /\
  wc3_volume "abc" (promptHost (Some "2")) loud =
    mkResult (Normal tt) loud
      [ui_prompt "Volume (0.0–1.0):" (Num 1); ui_notify InvalidVolume "error"].
Proof.
  split; [|split; [|split]].
  - apply (proj1 (proj1 wc3_volume_accepts "0.25" peonHost loud)).
    + discriminate.
    + vm_compute. reflexivity.
  - apply (proj1 (proj2 (proj2 (proj1 wc3_volume_accepts "1.5" (promptHost None) loud)
                           (or_intror eq_refl)))).
    reflexivity.
  - apply (proj1 (proj2 (proj2 (proj2 (proj1 wc3_volume_accepts ""
             (promptHost (Some "0.75")) loud) (or_introl eq_refl))) "0.75" eq_refl)).
    vm_compute. reflexivity.
  - apply (proj2 (proj2 (proj2 (proj2 (proj1 wc3_volume_accepts "abc"
             (promptHost (Some "2")) loud) (or_intror eq_refl))) "2" eq_refl)).
    vm_compute. reflexivity.
Defined.

(** C6 as stated fails for the inline argument: ["1.5"] is out of range,
    yet with the prompt dismissed no input error is shown, and with the
    prompt answered ["0.25"] the volume changes and no input error is
    shown either. *)
Lemma wc3_volume_counterexample :
  let dismissed := wc3_volume "1.5" (promptHost None) loud in
  let answered := wc3_volume "1.5" (promptHost (Some "0.25")) loud in
  parseFloat "1.5" = Num (3 # 2) /\
  volumeAccepted (parseFloat "1.5") = false /\
  trace dismissed = [ui_prompt "Volume (0.0–1.0):" (Num 1)] /\
  (ui_notify InvalidVolume "error" ∉ trace dismissed) /\
  volume loud = Num 1 /\
  volume (state answered) = Num (1 # 4) /\
  volume (state answered) ≠ volume loud /\
  (ui_notify InvalidVolume "error" ∉ trace answered).
Proof.
  intros dismissed answered.
  do 3 (split; [by vm_compute|]).
  split.
  { intros H. apply list_elem_of_In in H. vm_compute in H.
    destruct H as [H|[]]. discriminate. }
  do 2 (split; [by vm_compute|]).
  split.
  { vm_compute. discriminate. }
  intros H. apply list_elem_of_In in H. vm_compute in H.
  repeat (destruct H as [H|H]; [discriminate|]). done.
Qed.

(** ** Model resolver *)

(** C5.  [packForModel] is a function of the descriptor alone, defined on
    every input: an absent descriptor gives ["peon"]; a descriptor whose
    lower-cased [id] or [provider] contains ["codex"] gives ["peasant"];
    any other descriptor gives ["peon"], among them those (without
    ["codex"]) whose [id] or [provider] contains ["claude"] or
    ["anthropic"].  [{id:"claude-3-opus"}], [{provider:"anthropic"}] and
    [undefined] give ["peon"], [{id:"gpt-5-codex"}] gives ["peasant"]. *)
Theorem packForModel_resolves :
  packForModel None = "peon" /\
  (forall m, mentions m "codex" -> packForModel (Some m) = "peasant") /\
  (forall m, ~ mentions m "codex" ->
     mentions m "claude" \/ mentions m "anthropic" ->
     packForModel (Some m) = "peon") /\
  (forall m, ~ mentions m "codex" -> packForModel (Some m) = "peon") /\
  (forall model, packForModel model = "peon" \/ packForModel model = "peasant") /\
  packForModel (Some claudeModel) = "peon" /\
  packForModel (Some codexModel) = "peasant" /\
  packForModel (Some anthropicModel) = "peon".
Proof.
  split; [done|]. split; [apply packForModel_codex|].
  split; [intros m Hm _; by apply packForModel_no_codex|].
  split; [apply packForModel_no_codex|].
  split; [|by vm_compute].
  intros [m|]; [|by left]. unfold packForModel.
  destruct (includes _ "codex" || includes _ "codex")%bool; [by right|].
  left. by destruct (includes _ "claude" || _)%bool.
Qed.

Lemma packForModel_resolves_witness :
  packForModel (Some (Model.Build (Some "OpenAI-Codex") (Some "o4") None)) = "peasant" /\
  packForModel (Some (Model.Build (Some "Anthropic") (Some "Claude-Sonnet") None)) = "peon" /\
  packForModel (Some (Model.Build (Some "google") (Some "gemini") None)) = "peon".
Proof.
  destruct packForModel_resolves as (_ & Hcodex & Hclaude & Hother & _).
  split; [|split].
  - apply Hcodex. right. exists "openai-", "". reflexivity.
  - apply Hclaude.
    + intros [(pre & post & H)|(pre & post & H)];
        apply (f_equal (fun s => includes s "codex")) in H;
        rewrite (proj2 (includes_spec (pre +:+ "codex" +:+ post) "codex")) in H
          by eauto; vm_compute in H; discriminate.
    + left. left. exists "", "-sonnet". reflexivity.
  - apply Hother.
    intros [(pre & post & H)|(pre & post & H)];
      apply (f_equal (fun s => includes s "codex")) in H;
      rewrite (proj2 (includes_spec (pre +:+ "codex" +:+ post) "codex")) in H
        by eauto; vm_compute in H; discriminate.
Defined.

(** * Further properties of the code *)

(** ** Selection, continued *)

Lemma key_inj c1 c2 : key c1 = key c2 -> c1 = c2.
Proof. by destruct c1, c2. Qed.

Lemma pickSound_picks category env st manifest entry :
  loaded env (currentPack st) = Some manifest ->
  PackManifest.categories manifest !! key category = Some entry ->
  PackManifest.sounds entry ≠ [] ->
  pickSound category env st =
  let cands := candidates (PackManifest.sounds entry) (lastPlayed st !! key category) in
  match array_get cands (randomIndex (Math_random env) (length cands)) with
  | None => mkResult (Throw TypeError) st []
  | Some pick =>
      mkResult (Normal (Some pick))
        (set_lastPlayed (<[key category := file pick]> (lastPlayed st)) st) []
  end.
Proof.
  intros Hman Hcat Hne. rewrite pickSound_run, Hman, Hcat. cbn zeta.
  destruct (PackManifest.sounds entry) as [|s l] eqn:Hs; [done|]. reflexivity.
Qed.

(** X1.  [pickSound] returns [null] exactly when the manifest of the
    current pack has no non-empty sound list for the category (manifest
    not loadable, category absent, or list empty); it then leaves the
    state as it was and issues no effect. *)
Theorem pickSound_null_iff category env st :
  (outcome (pickSound category env st) = Normal None <->
   ~ exists manifest entry,
       loaded env (currentPack st) = Some manifest /\
       PackManifest.categories manifest !! key category = Some entry /\
       PackManifest.sounds entry ≠ []) /\
  (outcome (pickSound category env st) = Normal None ->
   pickSound category env st = mkResult (Normal None) st []).
Proof.
  split.
  - rewrite pickSound_run.
    destruct (loaded env (currentPack st)) as [manifest|] eqn:Hman.
    2:{ split; [|done]. by intros _ (? & ? & ? & _). }
    destruct (PackManifest.categories manifest !! key category) as [entry|] eqn:Hcat.
    2:{ split; [|done]. intros _ (? & ? & [= <-] & ? & _). congruence. }
    cbn zeta. destruct (PackManifest.sounds entry) as [|s l] eqn:Hs.
    + split; [|done]. intros _ (? & ? & [= <-] & Hc & Hne).
      rewrite Hcat in Hc. injection Hc as <-. by rewrite Hs in Hne.
    + cbn [length Nat.eqb]. split.
      * by destruct (array_get _ _).
      * intros Hnone. exfalso. apply Hnone. exists manifest, entry.
        rewrite Hs. by repeat split.
  - destruct (pickSound_cases category env st) as [H|[H|[e H]]]; by rewrite H.
Qed.

Lemma pickSound_null_iff_witness :
  pickSound Complete peonHost playedReady = mkResult (Normal None) playedReady [].
Proof.
  apply (proj2 (pickSound_null_iff Complete peonHost playedReady)).
  apply (proj1 (pickSound_null_iff Complete peonHost playedReady)).
  intros (manifest & entry & Hman & Hcat & _).
  vm_compute in Hman. injection Hman as <-. vm_compute in Hcat. discriminate.
Defined.

(** X2.  A category with exactly one sound: for any draw in [[0, 1)] and
    whatever [lastPlayed] holds, [pickSound] returns that entry and
    records its file; it never throws. *)
Theorem pickSound_single category env st manifest x :
  loaded env (currentPack st) = Some manifest ->
  PackManifest.categories manifest !! key category = Some (PackManifest.Category [x]) ->
  (0 <= Math_random env)%Q -> (Math_random env < 1)%Q ->
  pickSound category env st =
  mkResult (Normal (Some x))
           (set_lastPlayed (<[key category := file x]> (lastPlayed st)) st) [].
Proof.
  intros Hman Hcat Hlo Hhi.
  rewrite (pickSound_picks _ _ _ _ _ Hman Hcat) by done.
  cbn [PackManifest.sounds]. rewrite candidates_singleton. cbn zeta.
  destruct (randomIndex_range (Math_random env) 1 (Math_random_binary64 env) Hlo Hhi)
    as (i & Hr & Hi); [lia | done |].
  cbn [length] in *. rewrite Hr.
  assert (i = 0%Z) as -> by lia.
  reflexivity.
Qed.

Lemma pickSound_single_witness :
  pickSound Error peonHost playedReady =
  mkResult (Normal (Some (mkSoundEntry "PeonAngry4.wav" "Me not that kind of orc!")))
    (set_lastPlayed (<[key Error := "PeonAngry4.wav"]> (lastPlayed playedReady))
                    playedReady) [].
Proof.
  apply (pickSound_single Error peonHost playedReady peonManifest
           (mkSoundEntry "PeonAngry4.wav" "Me not that kind of orc!")).
  - vm_compute. reflexivity.
  - vm_compute. reflexivity.
  - vm_compute. discriminate.
  - vm_compute. reflexivity.
Defined.

(** X3.  [pickSound] touches nothing but the entry of its own category in
    [lastPlayed]: the entries of the other categories, [muted], [volume],
    [currentPack] and [promptTimestamps] are as before, however the call
    ends. *)
Theorem pickSound_other_categories category env st :
  let st' := state (pickSound category env st) in
  muted st' = muted st /\
  volume st' = volume st /\
  currentPack st' = currentPack st /\
  promptTimestamps st' = promptTimestamps st /\
  forall other, other ≠ category ->
    lastPlayed st' !! key other = lastPlayed st !! key other.
Proof.
  destruct (pickSound_cases category env st) as [H|[H|[e H]]]; rewrite H; cbn;
    try done.
  repeat (split; [done|]). intros other Hne.
  apply lookup_insert_ne. intros Heq. by apply key_inj in Heq.
Qed.

Lemma pickSound_other_categories_witness :
  lastPlayed (state (pickSound Error peonHost playedReady)) !! key Greeting =
  lastPlayed playedReady !! key Greeting.
Proof.
  apply (pickSound_other_categories Error peonHost playedReady). discriminate.
Defined.

(** A pick from a list of at least two sounds avoids the recorded file. *)
Lemma pickSound_avoids_recorded category env st manifest entry e st' f :
  loaded env (currentPack st) = Some manifest ->
  PackManifest.categories manifest !! key category = Some entry ->
  (2 <= length (PackManifest.sounds entry))%nat ->
  lastPlayed st !! key category = Some f ->
  pickSound category env st = mkResult (Normal (Some e)) st' [] ->
  file e ≠ f.
Proof.
  intros Hman Hcat Hlen Hlast Hpick.
  rewrite pickSound_run, Hman, Hcat in Hpick. cbn zeta in Hpick.
  destruct (length (PackManifest.sounds entry) =? 0)%nat; [done|].
  destruct (array_get _ _) as [pick|] eqn:Hget; [|done].
  injection Hpick as -> _. apply array_get_elem in Hget.
  apply candidates_avoid_last in Hget; [|done]. congruence.
Qed.

(** X4.  Two picks in a row in one category never give the same file when
    the category has at least two sounds at the second pick, also when
    the manifest changed in between. *)
Theorem pickSound_no_repeat category env1 env2 st e1 st1 e2 st2 manifest entry :
  pickSound category env1 st = mkResult (Normal (Some e1)) st1 [] ->
  loaded env2 (currentPack st1) = Some manifest ->
  PackManifest.categories manifest !! key category = Some entry ->
  (2 <= length (PackManifest.sounds entry))%nat ->
  pickSound category env2 st1 = mkResult (Normal (Some e2)) st2 [] ->
  file e2 ≠ file e1.
Proof.
  intros H1 Hman Hcat Hlen H2.
  destruct (pickSound_some_state _ _ _ _ _ _ H1) as [Hst1 _].
  eapply pickSound_avoids_recorded; [exact Hman | exact Hcat | exact Hlen | | exact H2].
  rewrite Hst1. cbn [lastPlayed set_lastPlayed]. apply lookup_insert_eq.
Qed.

Lemma pickSound_no_repeat_witness :
  pickSound Greeting peonHost initialState =
    mkResult (Normal (Some (mkSoundEntry "PeonReady1.wav" "Ready to work?")))
             playedReady [] /\
  file (mkSoundEntry "PeonWhat1.wav" "Yes?") ≠
  file (mkSoundEntry "PeonReady1.wav" "Ready to work?").
Proof.
  assert (H1 : pickSound Greeting peonHost initialState =
               mkResult (Normal (Some (mkSoundEntry "PeonReady1.wav" "Ready to work?")))
                        playedReady [])
    by (vm_compute; reflexivity).
  split; [exact H1|].
  apply (pickSound_no_repeat Greeting peonHost peonHost initialState
           (mkSoundEntry "PeonReady1.wav" "Ready to work?") playedReady
           (mkSoundEntry "PeonWhat1.wav" "Yes?")
           (state (pickSound Greeting peonHost playedReady))
           peonManifest
           (PackManifest.Category
              [ mkSoundEntry "PeonReady1.wav" "Ready to work?";
                mkSoundEntry "PeonWhat1.wav" "Yes?" ])).
  - exact H1.
  - vm_compute. reflexivity.
  - vm_compute. reflexivity.
  - simpl. lia.
  - vm_compute. reflexivity.
Defined.

(** ** Playback, continued *)

(** *** Paths *)

Example path_join_samples :
  path_join ["/a/b"; "peon"; "sounds"; "./x.wav"] = "/a/b/peon/sounds/x.wav" /\
  path_join ["a"; ".."; ".."; "b"] = "../b" /\
  path_join ["/a"; ".."; ".."; "b"] = "/b" /\
  path_join ["a/"; "b/"] = "a/b/" /\
  path_join [""; ""] = "." /\
  path_join [] = "." /\
  path_join ["a//b"; "../c"; "."] = "a/c" /\
  path_join ["./"] = "./" /\
  path_join ["/"; ".."] = "/" /\
  path_join ["a"; ".."] = "." /\
  path_join ["packs"; "peon"; "manifest.json"] = "packs/peon/manifest.json" /\
  path_join ["..."; ".."; "x"] = "x" /\
  path_join ["a"; "../../.."; "x/"] = "../../x/".
Proof. vm_compute. repeat split. Qed.















(** Two file names can name one path: the second pick of X6 may then
    request the path of the first. *)
Example path_join_shared :
  path_join ["/ext/packs"; "peon"; "sounds"; "./a.wav"] =
  path_join ["/ext/packs"; "peon"; "sounds"; "a.wav"] /\
  plainName "PeonReady1.wav".
Proof. split; [by vm_compute|]. by repeat split. Qed.

(** X5.  With sound on, on macOS, when a sound is picked and its file
    exists: [playSound] returns the line of the picked entry and issues
    exactly one effect, the request to play the normalised path
    [path.join(PACKS_DIR, currentPack, "sounds", file)] at the current
    volume; the pick is recorded in [lastPlayed]. *)
Theorem playSound_dispatch category env st e st1 :
  muted st = false ->
  IS_MACOS env = true ->
  pickSound category env st = mkResult (Normal (Some e)) st1 [] ->
  existsSync env (path_join [PACKS_DIR env; currentPack st; "sounds"; file e]) = true ->
  playSound category env st =
  mkResult (Normal (Some (line e)))
    (set_lastPlayed (<[key category := file e]> (lastPlayed st)) st)
    [execFile_afplay (volume st)
       (path_join [PACKS_DIR env; currentPack st; "sounds"; file e])].
Proof.
  intros Hmuted Hmac Hpick Hexists.
  destruct (pickSound_some_state _ _ _ _ _ _ Hpick) as [-> _].
  rewrite playSound_run, Hmuted, Hmac, Hpick. cbn in Hexists |- *.
  by rewrite Hexists.
Qed.

Lemma playSound_dispatch_witness :
  playSound Greeting peonHost playedReady =
  mkResult (Normal (Some "Yes?"))
    (set_lastPlayed (<[key Greeting := "PeonWhat1.wav"]> (lastPlayed playedReady))
                    playedReady)
    [execFile_afplay (Num (1 # 2)) "/ext/packs/peon/sounds/PeonWhat1.wav"].
Proof.
  apply (playSound_dispatch Greeting peonHost playedReady
           (mkSoundEntry "PeonWhat1.wav" "Yes?")
           (state (pickSound Greeting peonHost playedReady))).
  - reflexivity.
  - reflexivity.
  - vm_compute. reflexivity.
  - vm_compute. reflexivity.
Defined.



(** ** Burst detection, continued *)

(** X7.  After every call of [checkAnnoyed] each recorded timestamp is
    younger than the window relative to [now], the last one is [now], the
    sequence has grown by at most one entry and is not empty, and the
    rest of the state is as before. *)
Theorem checkAnnoyed_fresh env st :
  let st' := state (checkAnnoyed env st) in
  (forall t, t ∈ promptTimestamps st' -> (Date_now env - t < 10000)%Z) /\
  last (promptTimestamps st') = Some (Date_now env) /\
  (1 <= length (promptTimestamps st') <= length (promptTimestamps st) + 1)%nat /\
  muted st' = muted st /\ volume st' = volume st /\
  currentPack st' = currentPack st /\ lastPlayed st' = lastPlayed st.
Proof.
  rewrite checkAnnoyed_run. cbn [state promptTimestamps set_promptTimestamps].
  change ANNOYED_WINDOW_MS with 10000%Z.
  split; [|split; [|split; [|done]]].
  - intros t [[? _]%list_elem_of_filter | ->%list_elem_of_singleton]%elem_of_app;
      [done | lia].
  - apply last_snoc.
  - rewrite length_app. cbn [length].
    pose proof (length_filter (fun t => (Date_now env - t < 10000)%Z)
                  (promptTimestamps st)). lia.
Qed.

Lemma checkAnnoyed_fresh_witness :
  (Date_now (atTime 13000) - 6000 < 10000)%Z.
Proof.
  apply (proj1 (checkAnnoyed_fresh (atTime 13000)
                  (set_promptTimestamps [0; 6000]%Z initialState))).
  vm_compute. left.
Defined.

(** X8.  Three calls of [checkAnnoyed] on a clock that does not run
    backwards, the third less than the window after the first: the third
    call answers true, whatever was recorded before. *)
Theorem checkAnnoyed_burst env1 env2 env3 st :
  (Date_now env1 <= Date_now env2)%Z ->
  (Date_now env2 <= Date_now env3)%Z ->
  (Date_now env3 - Date_now env1 < 10000)%Z ->
  let s1 := state (checkAnnoyed env1 st) in
  let s2 := state (checkAnnoyed env2 s1) in
  outcome (checkAnnoyed env3 s2) = Normal true.
Proof.
  intros H12 H23 H13 s1 s2. subst s1 s2.
  rewrite (checkAnnoyed_run env1). cbn [state].
  rewrite (checkAnnoyed_run env2). cbn [state].
  rewrite (checkAnnoyed_run env3).
  cbn [state outcome promptTimestamps set_promptTimestamps].
  change ANNOYED_WINDOW_MS with 10000%Z. change ANNOYED_THRESHOLD with 3%nat.
  f_equal. apply Nat.leb_le.
  rewrite !filter_app, !length_app.
  rewrite (filter_cons_True _ (Date_now env1)) by lia.
  rewrite (filter_cons_True _ (Date_now env1)) by lia.
  rewrite (filter_cons_True _ (Date_now env2)) by lia.
  cbn [length filter]. rewrite !filter_nil. cbn [length]. lia.
Qed.

Lemma checkAnnoyed_burst_witness :
  outcome (checkAnnoyed (atTime 9999)
             (state (checkAnnoyed (atTime 4000)
                (state (checkAnnoyed (atTime 0) initialState))))) = Normal true.
Proof.
  apply (checkAnnoyed_burst (atTime 0) (atTime 4000) (atTime 9999) initialState);
    simpl; lia.
Defined.

(** X9.  When every recorded timestamp is at least the window old,
    [checkAnnoyed] forgets them all, keeps only [now] and answers false. *)
Theorem checkAnnoyed_quiet env st :
  (forall t, t ∈ promptTimestamps st -> (10000 <= Date_now env - t)%Z) ->
  checkAnnoyed env st =
  mkResult (Normal false) (set_promptTimestamps [Date_now env] st) [].
Proof.
  intros Hold. rewrite checkAnnoyed_run. cbn zeta.
  change ANNOYED_WINDOW_MS with 10000%Z.
  assert (filter (fun t => (Date_now env - t < 10000)%Z) (promptTimestamps st) = [])
    as ->; [|done].
  induction (promptTimestamps st) as [|t l IH]; [done|].
  rewrite filter_cons_False.
  - apply IH. intros t' Ht'. apply Hold. by right.
  - specialize (Hold t (list_elem_of_here _ _)). lia.
Qed.

Lemma checkAnnoyed_quiet_witness :
  checkAnnoyed (atTime 20000) (set_promptTimestamps [0; 10000]%Z initialState) =
  mkResult (Normal false)
    (set_promptTimestamps [Date_now (atTime 20000)]
       (set_promptTimestamps [0; 10000]%Z initialState)) [].
Proof.
  apply (checkAnnoyed_quiet (atTime 20000) (set_promptTimestamps [0; 10000]%Z initialState)).
  intros t Ht. apply list_elem_of_In in Ht. simpl in Ht.
  destruct Ht as [<-|[<-|[]]]; simpl; lia.
Defined.

(** ** State properties and effects along a computation *)

Section Hoare.
Variable P : Env -> Prop.
Variable I : State -> Prop.
Variable E : Effect -> Prop.

Lemma hoare_ret {A} (a : A) : hoare P I E (ret a).
Proof. intros env st _ HI. by split. Qed.

Lemma hoare_throw {A} e : hoare P I E (@throw A e).
Proof. intros env st _ HI. by split. Qed.

Lemma hoare_gets {A} (f : State -> A) : hoare P I E (gets f).
Proof. intros env st _ HI. by split. Qed.

Lemma hoare_asks {A} (f : Env -> A) : hoare P I E (asks f).
Proof. intros env st _ HI. by split. Qed.

Lemma hoare_emit e : E e -> hoare P I E (emit e).
Proof. intros He env st _ HI. split; [done|]. by repeat constructor. Qed.

Lemma hoare_modify f : (forall st, I st -> I (f st)) -> hoare P I E (modify f).
Proof. intros Hf env st _ HI. split; [by apply Hf | constructor]. Qed.

Lemma hoare_bind {A B} (m : M A) (k : A -> M B) :
  hoare P I E m -> (forall a, hoare P I E (k a)) -> hoare P I E (bind m k).
Proof.
  intros Hm Hk env st HP HI. unfold bind.
  destruct (Hm env st HP HI) as [HI1 HE1].
  destruct (outcome (m env st)) as [a|e]; cbn [state trace]; [|done].
  destruct (Hk a env (state (m env st)) HP HI1) as [HI2 HE2].
  split; [done|]. by apply Forall_app.
Qed.

Lemma hoare_loadManifest packName : hoare P I E (loadManifest packName).
Proof. intros env st _ HI. rewrite loadManifest_run. by split. Qed.

Lemma hoare_checkAnnoyed :
  (forall l st, I st -> I (set_promptTimestamps l st)) -> hoare P I E checkAnnoyed.
Proof. intros Hf env st _ HI. rewrite checkAnnoyed_run. split; [by apply Hf | constructor]. Qed.

Lemma hoare_whenLine line k :
  (forall l, hoare P I E (k l)) -> hoare P I E (whenLine line k).
Proof.
  intros Hk. unfold whenLine. destruct line as [l|]; [|apply hoare_ret].
  destruct (bool_decide (l = "")); [apply hoare_ret | apply Hk].
Qed.
End Hoare.

(** Splits a [hoare] goal along the computation; [tacI] closes the goals
    about state updates, [tacE] those about effects, and the leaves are
    looked up among the [hoare] hints. *)
Create HintDb hoare.

Ltac hoare_step tacI tacE :=
  first
    [ solve [auto with hoare nocore]
    | apply hoare_ret
    | apply hoare_throw
    | apply hoare_gets
    | apply hoare_asks
    | apply hoare_loadManifest
    | apply hoare_emit; solve [tacE]
    | apply hoare_modify; solve [tacI]
    | apply hoare_checkAnnoyed; solve [tacI]
    | apply hoare_whenLine; intros ?
    | apply hoare_bind; [|intros ?]
    | match goal with
      | |- hoare _ _ _ (if ?b then _ else _) => destruct b
      | |- hoare _ _ _ (match ?x with Some _ => _ | None => _ end) => destruct x
      end ].

Ltac hoare_auto tacI tacE := repeat hoare_step tacI tacE.

Lemma packForModel_range model :
  packForModel model = "peon" \/ packForModel model = "peasant".
Proof.
  destruct model as [m|]; [|by left]. unfold packForModel.
  destruct (includes _ "codex" || includes _ "codex")%bool; [by right|].
  left. by destruct (includes _ "claude" || _)%bool.
Qed.

(** Every request [playSound] issues carries the volume of the state it
    was called in. *)
Lemma playSound_trace_volume category env st e :
  e ∈ trace (playSound category env st) ->
  exists soundPath, e = execFile_afplay (volume st) soundPath.
Proof.
  rewrite playSound_run.
  destruct (muted st || negb (IS_MACOS env)); [by intros ?%elem_of_nil|].
  destruct (pickSound_cases category env st) as [H|[H|[pick H]]]; rewrite H;
    cbn [outcome state trace]; [by intros ?%elem_of_nil..|].
  cbn zeta. destruct (existsSync env _); [|by intros ?%elem_of_nil].
  intros ->%list_elem_of_singleton. by eexists.
Qed.

Lemma wellFormed_set_muted b st : wellFormed st -> wellFormed (set_muted b st).
Proof. done. Qed.

Lemma wellFormed_set_promptTimestamps l st :
  wellFormed st -> wellFormed (set_promptTimestamps l st).
Proof. done. Qed.

Lemma wellFormed_set_currentPack model st :
  wellFormed st -> wellFormed (set_currentPack (packForModel model) st).
Proof. intros (? & _ & ?). split; [done|]. split; [apply packForModel_range | done]. Qed.

Lemma wellFormed_clear st : wellFormed st -> wellFormed (set_lastPlayed ∅ st).
Proof. intros (? & ? & _). split; [done|]. split; [done|]. cbn. set_solver. Qed.

Lemma wellFormed_set_volume v st :
  volumeAccepted v = true -> wellFormed st -> wellFormed (set_volume v st).
Proof.
  intros Hacc (_ & ? & ?). split; [|done]. by apply volumeAccepted_spec.
Qed.

Lemma playSound_wellFormed P category :
  category ≠ Permission -> hoare P wellFormed safeEffect (playSound category).
Proof.
  intros Hcat env st _ (Hvol & Hpack & Hdom). split.
  - destruct (playSound_frame category env st) as [->|[f ->]]; [done|].
    split; [done|]. split; [done|]. cbn. rewrite dom_insert_L.
    assert (key category ∈ playedKeys)
      by (destruct category; try done; apply (bool_decide_unpack _); by vm_compute).
    apply union_subseteq. split; [by apply singleton_subseteq_l | done].
  - apply Forall_forall. intros e [p ->]%playSound_trace_volume vol soundPath [= <- _].
    exact Hvol.
Qed.

#[local] Hint Resolve playSound_wellFormed : hoare.
#[local] Hint Extern 1 (_ ≠ Permission) => discriminate : hoare.

Ltac wf_state :=
  intros; first [ by apply wellFormed_set_currentPack
                | by apply wellFormed_clear
                | by apply wellFormed_set_muted
                | by apply wellFormed_set_promptTimestamps ].
Ltac wf_effect := intros ? ? [=].

Lemma applyVolume_wellFormed P v :
  volumeAccepted v = true -> hoare P wellFormed safeEffect (applyVolume v).
Proof.
  intros Hacc. unfold applyVolume.
  apply hoare_bind; [apply hoare_modify; intros st; by apply wellFormed_set_volume|].
  intros _. hoare_auto wf_state wf_effect.
Qed.

Lemma handle_wellFormed ev :
  hoare (fun _ => True) wellFormed safeEffect (handle ev).
Proof.
  destruct ev as [m|m|m| |isError| |args|]; cbn [handle].
  - unfold on_model_select, packEmoji, showStatus. hoare_auto wf_state wf_effect.
  - unfold on_session_start, syncPackToModel, packEmoji, showStatus.
    hoare_auto wf_state wf_effect.
  - unfold on_agent_start, syncPackToModel, showStatus.
    hoare_auto wf_state wf_effect.
  - unfold on_agent_end, showStatus. hoare_auto wf_state wf_effect.
  - unfold on_tool_result, showStatus. hoare_auto wf_state wf_effect.
  - unfold toggleMute. hoare_auto wf_state wf_effect.
  - unfold wc3_volume.
    destruct (negb (bool_decide (args = "")) && volumeAccepted (parseFloat args))
      eqn:Hinline.
    + apply applyVolume_wellFormed. by apply andb_true_iff in Hinline as [_ ?].
    + apply hoare_bind; [apply hoare_gets|]. intros vol.
      apply hoare_bind; [apply hoare_emit; wf_effect|]. intros _.
      apply hoare_bind; [apply hoare_asks|]. intros [input|]; [|apply hoare_ret].
      destruct (volumeRejected (parseFloat input)) eqn:Hrej.
      * apply hoare_emit. wf_effect.
      * apply applyVolume_wellFormed.
        rewrite volumeRejected_spec in Hrej. by apply negb_false_iff.
  - unfold toggleMute. hoare_auto wf_state wf_effect.
Qed.

(** ** Reachable states *)

Lemma run_wellFormed events st :
  wellFormed st ->
  wellFormed (fst (run events st)) /\ Forall safeEffect (snd (run events st)).
Proof.
  revert st; induction events as [|[ev env] rest IH]; intros st Hwf; cbn [run].
  - by split.
  - destruct (handle_wellFormed ev env st Logic.I Hwf) as [Hwf1 HE1].
    destruct (IH _ Hwf1) as [Hwf2 HE2].
    destruct (run rest (state (handle ev env st))) as [st' tr]. cbn [fst snd] in *.
    split; [done|]. by apply Forall_app.
Qed.

Lemma initialState_wellFormed : wellFormed initialState.
Proof.
  split; [|split; [by left | cbn; set_solver]].
  exists (1 # 2). by repeat split.
Qed.

(** X10.  Whatever events the host delivers, in whatever world, starting
    from the initial state: [volume] is a finite number between 0 and 1,
    [currentPack] is ["peon"] or ["peasant"], and [lastPlayed] has keys
    only among the five categories the handlers play; the declared
    category [permission] is never recorded. *)
Theorem reachable_state events :
  let st := fst (run events initialState) in
  volumeInRange (volume st) /\
  (currentPack st = "peon" \/ currentPack st = "peasant") /\
  dom (lastPlayed st) ⊆ playedKeys /\
  lastPlayed st !! key Permission = None.
Proof.
  destruct (run_wellFormed events initialState initialState_wellFormed)
    as [(Hvol & Hpack & Hdom) _].
  repeat (split; [done|]).
  apply not_elem_of_dom. intros Hin. apply Hdom in Hin.
  revert Hin. apply (bool_decide_unpack _). by vm_compute.
Qed.

(** X11.  Every request to the audio player issued along any run from the
    initial state carries a volume between 0 and 1. *)
Theorem reachable_playback events vol soundPath :
  execFile_afplay vol soundPath ∈ snd (run events initialState) ->
  volumeInRange vol.
Proof.
  intros Hin.
  destruct (run_wellFormed events initialState initialState_wellFormed) as [_ HE].
  rewrite Forall_forall in HE. by apply (HE _ Hin vol soundPath).
Qed.

Lemma reachable_playback_witness : volumeInRange (Num (1 # 4)).
Proof.
  apply (reachable_playback
           [ (command_wc3_volume "0.25", bareHost); (session_start None, peonHost) ]
           (Num (1 # 4)) "/ext/packs/peon/sounds/PeonWhat1.wav").
  vm_compute. right. left.
Defined.

(** ** The mute and platform gate *)

Lemma playSound_off category :
  hoare (fun env => IS_MACOS env = false) (fun _ => True)
        (fun e => isPlayback e = false) (playSound category).
Proof.
  intros env st Hmac _. rewrite playSound_run, Hmac, orb_true_r. by split.
Qed.

Lemma playSound_while_muted category :
  hoare (fun _ => True) (fun st => muted st = true)
        (fun e => isPlayback e = false) (playSound category).
Proof.
  intros env st _ Hmuted. rewrite playSound_run, Hmuted. by split.
Qed.

#[local] Hint Resolve playSound_off playSound_while_muted : hoare.

Lemma handle_off ev :
  hoare (fun env => IS_MACOS env = false) (fun _ => True)
        (fun e => isPlayback e = false) (handle ev).
Proof.
  destruct ev; cbn [handle];
    unfold on_model_select, on_session_start, on_agent_start, on_agent_end,
      on_tool_result, toggleMute, wc3_volume, applyVolume, syncPackToModel,
      packEmoji, showStatus;
    hoare_auto ltac:(done) ltac:(reflexivity).
Qed.

Lemma handle_while_muted ev :
  ev ≠ command_wc3_mute -> ev ≠ shortcut_ctrl_shift_m ->
  hoare (fun _ => True) (fun st => muted st = true)
        (fun e => isPlayback e = false) (handle ev).
Proof.
  intros H1 H2. destruct ev; try done; cbn [handle];
    unfold on_model_select, on_session_start, on_agent_start, on_agent_end,
      on_tool_result, wc3_volume, applyVolume, syncPackToModel,
      packEmoji, showStatus;
    hoare_auto ltac:(done) ltac:(reflexivity).
Qed.

Lemma silent_noPlayback tr :
  Forall (fun e => isPlayback e = false) tr -> noPlayback tr.
Proof.
  intros Hall vol soundPath Hin. rewrite Forall_forall in Hall.
  by specialize (Hall _ Hin).
Qed.

(** X12.  Off macOS [playSound] returns [null] at once, state untouched;
    and while [muted] is set or the platform is not macOS no handler, for
    any event, issues a request to the audio player. *)
Theorem handle_gate ev env st :
  (IS_MACOS env = false ->
   forall category, playSound category env st = mkResult (Normal None) st []) /\
  (muted st = true \/ IS_MACOS env = false -> noPlayback (trace (handle ev env st))).
Proof.
  split.
  - intros Hmac category. by rewrite playSound_run, Hmac, orb_true_r.
  - intros [Hmuted|Hmac]; apply silent_noPlayback.
    + destruct ev as [m|m|m| |isError| |args|];
        try (by repeat constructor);
        by apply (fun H1 H2 => proj2 (handle_while_muted _ H1 H2 env st Logic.I Hmuted)).
    + by apply (handle_off ev env st Hmac Logic.I).
Qed.

Lemma handle_gate_witness :
  playSound Greeting linuxHost initialState = mkResult (Normal None) initialState [] /\
  noPlayback (trace (handle (session_start None) peonHost (set_muted true initialState))) /\
  noPlayback (trace (handle agent_end linuxHost initialState)).
Proof.
  split; [|split].
  - apply (proj1 (handle_gate agent_end linuxHost initialState)). reflexivity.
  - apply (proj2 (handle_gate (session_start None) peonHost (set_muted true initialState))).
    left. reflexivity.
  - apply (proj2 (handle_gate agent_end linuxHost initialState)).
    right. reflexivity.
Defined.

(** ** Which handler changes which part of the state *)

Lemma playSound_keeps {A} (f : State -> A) (x : A) P category :
  (forall m st, f (set_lastPlayed m st) = f st) ->
  hoare P (fun st => f st = x) (fun _ => True) (playSound category).
Proof.
  intros Hf env st _ <-. split; [|by apply Forall_forall].
  destruct (playSound_onlyLastPlayed category env st) as [m ->]. apply Hf.
Qed.

#[local] Hint Extern 1 (_ = _) => reflexivity : hoare.
#[local] Hint Resolve playSound_keeps : hoare.

(** Closes a goal [f (state (h env st)) = f st] when no update in [h]
    touches the field [f]. *)
Ltac field_kept :=
  lazymatch goal with
  | |- ?f (state (?h ?env ?st)) = ?f ?st =>
      let Hh := fresh "Hh" in
      assert (Hh : hoare (fun _ => True) (fun s => f s = f st) (fun _ => True) h)
        by (unfold on_model_select, on_session_start, on_agent_start, on_agent_end,
              on_tool_result, toggleMute, wc3_volume, applyVolume, syncPackToModel,
              packEmoji, showStatus;
            hoare_auto ltac:(intros; assumption) ltac:(exact Logic.I));
      exact (proj1 (Hh env st Logic.I eq_refl))
  end.

Lemma syncPackToModel_result model env st :
  exists st0, syncPackToModel model env st = mkResult (Normal tt) st0 [] /\
              currentPack st0 = packForModel model.
Proof.
  destruct (decide (packForModel model = currentPack st)) as [Heq|Hne].
  - exists st. by rewrite syncPackToModel_same.
  - eexists. by rewrite syncPackToModel_switch.
Qed.

(** X13.  After the [model_select], [session_start] and [agent_start]
    handlers [currentPack] is the pack of the model they were given,
    however the rest of the handler ends. *)
Theorem handle_sets_pack model env st :
  currentPack (state (handle (model_select model) env st)) = packForModel model /\
  currentPack (state (handle (session_start model) env st)) = packForModel model /\
  currentPack (state (handle (agent_start model) env st)) = packForModel model.
Proof.
  cbn [handle]. split; [|split].
  - destruct (decide (packForModel model = currentPack st)) as [Heq|Hne].
    + by rewrite on_model_select_same.
    + by rewrite (on_model_select_switch model env st Hne).
  - destruct (syncPackToModel_result model env st) as (st0 & Hsync & <-).
    unfold on_session_start. rewrite (bind_run _ _ env st tt st0 [] Hsync).
    cbn [state]. field_kept.
  - destruct (syncPackToModel_result model env st) as (st0 & Hsync & <-).
    unfold on_agent_start. rewrite (bind_run _ _ env st tt st0 [] Hsync).
    cbn [state]. field_kept.
Qed.

Lemma handle_pack_cases ev env st :
  currentPack (state (handle ev env st)) = currentPack st \/
  exists m, (ev = model_select m \/ ev = session_start m \/ ev = agent_start m) /\
            currentPack (state (handle ev env st)) = packForModel m.
Proof.
  destruct ev as [m|m|m| |isError| |args|];
    try (left; cbn [handle]; field_kept); right; exists m.
  - split; [auto|]. cbn [handle].
    destruct (decide (packForModel m = currentPack st)) as [Heq|Hne].
    + by rewrite on_model_select_same.
    + by rewrite (on_model_select_switch m env st Hne).
  - split; [auto|].
    destruct (syncPackToModel_result m env st) as (st0 & Hsync & <-).
    cbn [handle]. unfold on_session_start.
    rewrite (bind_run _ _ env st tt st0 [] Hsync). cbn [state]. field_kept.
  - split; [auto|].
    destruct (syncPackToModel_result m env st) as (st0 & Hsync & <-).
    cbn [handle]. unfold on_agent_start.
    rewrite (bind_run _ _ env st tt st0 [] Hsync). cbn [state]. field_kept.
Qed.

(** X14.  Each part of the state has its own writers: [muted] changes
    only in the mute command and shortcut, [volume] only in the volume
    command, [promptTimestamps] only in [agent_start], and [currentPack]
    only in [model_select], [session_start] and [agent_start], and then
    only when the model's pack differs from the current one. *)
Theorem handle_frame ev env st :
  let st' := state (handle ev env st) in
  (muted st' ≠ muted st -> ev = command_wc3_mute \/ ev = shortcut_ctrl_shift_m) /\
  (volume st' ≠ volume st -> exists args, ev = command_wc3_volume args) /\
  (promptTimestamps st' ≠ promptTimestamps st -> exists m, ev = agent_start m) /\
  (currentPack st' ≠ currentPack st ->
     exists m, (ev = model_select m \/ ev = session_start m \/ ev = agent_start m) /\
               packForModel m ≠ currentPack st).
Proof.
  intros st'. subst st'. split; [|split; [|split]].
  - destruct ev; try (intros _; by auto);
      intros Hne; exfalso; apply Hne; cbn [handle]; field_kept.
  - destruct ev; try (intros _; by eauto);
      intros Hne; exfalso; apply Hne; cbn [handle]; field_kept.
  - destruct ev; try (intros _; by eauto);
      intros Hne; exfalso; apply Hne; cbn [handle]; field_kept.
  - intros Hne. destruct (handle_pack_cases ev env st) as [Heq|(m & Hev & Hpack)];
      [done|].
    exists m. split; [done|]. by rewrite <- Hpack.
Qed.

Lemma handle_frame_witness :
  (exists args, command_wc3_volume "0.25" = command_wc3_volume args) /\
  (exists m, (model_select (Some codexModel) = model_select m \/
              model_select (Some codexModel) = session_start m \/
              model_select (Some codexModel) = agent_start m) /\
             packForModel m ≠ currentPack initialState).
Proof.
  split.
  - apply (proj1 (proj2 (handle_frame (command_wc3_volume "0.25") peonHost initialState))).
    vm_compute. discriminate.
  - apply (proj2 (proj2 (proj2
      (handle_frame (model_select (Some codexModel)) peonHost initialState)))).
    vm_compute. discriminate.
Defined.

(** ** The random draw *)

Lemma candidates_length sounds lastFile :
  (length (candidates sounds lastFile) <= length sounds)%nat.
Proof.
  unfold candidates. destruct (1 <? length sounds)%nat; [|done].
  apply length_filter.
Qed.

(** X15.  The anti-repeat filter aside, no sound is out of reach: for
    each candidate of an array (fewer than [2^32] sounds) there is a
    binary64 draw in [[0, 1)] with which [pickSound], rounding the product
    at line 108 as the code does, returns it. *)
Theorem pickSound_every_candidate category env st manifest entry e :
  loaded env (currentPack st) = Some manifest ->
  PackManifest.categories manifest !! key category = Some entry ->
  (Z.of_nat (length (PackManifest.sounds entry)) < 2 ^ 32)%Z ->
  e ∈ candidates (PackManifest.sounds entry) (lastPlayed st !! key category) ->
  exists rnd (Hrnd : binary64 rnd), (0 <= rnd)%Q /\ (rnd < 1)%Q /\
    outcome (pickSound category (drawing rnd Hrnd env) st) = Normal (Some e).
Proof.
  intros Hman Hcat Harray Hin.
  pose proof (candidates_length (PackManifest.sounds entry) (lastPlayed st !! key category))
    as Hshort.
  set (cands := candidates (PackManifest.sounds entry) (lastPlayed st !! key category)) in *.
  apply list_elem_of_lookup in Hin as [i Hi].
  pose proof (lookup_lt_Some _ _ _ Hi) as Hlt.
  destruct (drawFor_spec i (length cands) Hlt ltac:(lia)) as (Hbin & Hlo & Hhi & Hidx).
  exists (drawFor i (length cands)), Hbin.
  split; [done|]. split; [done|].
  assert (Hne : PackManifest.sounds entry ≠ []).
  { intros Hnil. rewrite Hnil in Hshort. cbn in Hshort. lia. }
  rewrite (pickSound_picks category (drawing _ _ env) st manifest entry Hman Hcat Hne).
  cbn zeta. fold cands. cbn [Math_random drawing].
  rewrite Hidx, array_get_index by lia.
  by rewrite Nat2Z.id, Hi.
Qed.

Lemma pickSound_every_candidate_witness :
  exists rnd (Hrnd : binary64 rnd), (0 <= rnd)%Q /\ (rnd < 1)%Q /\
    outcome (pickSound Greeting (drawing rnd Hrnd peonHost) initialState) =
    Normal (Some (mkSoundEntry "PeonWhat1.wav" "Yes?")).
Proof.
  apply (pickSound_every_candidate Greeting peonHost initialState peonManifest
           (PackManifest.Category
              [ mkSoundEntry "PeonReady1.wav" "Ready to work?";
                mkSoundEntry "PeonWhat1.wav" "Yes?" ])).
  - vm_compute. reflexivity.
  - vm_compute. reflexivity.
  - vm_compute. reflexivity.
  - vm_compute. right. left.
Defined.

(** The draw of X15 for the second of two greetings, and the index the
    code computes from it. *)
Example drawFor_sample :
  drawFor 1 2 = (824633720832 # 1099511627776)%Q /\
  randomIndex (drawFor 1 2) 2 = Num (inject_Z 1).
Proof. by vm_compute. Qed.

(** ** At most one sound per event *)

Lemma playbacks_app tr1 tr2 : playbacks (tr1 ++ tr2) = (playbacks tr1 + playbacks tr2)%nat.
Proof. unfold playbacks. by rewrite filter_app, length_app. Qed.

Lemma atMost_ret {A} n (a : A) : atMost n (ret a).
Proof. intros env st. cbn. lia. Qed.

Lemma atMost_throw {A} n e : atMost n (@throw A e).
Proof. intros env st. cbn. lia. Qed.

Lemma atMost_gets {A} n (f : State -> A) : atMost n (gets f).
Proof. intros env st. cbn. lia. Qed.

Lemma atMost_asks {A} n (f : Env -> A) : atMost n (asks f).
Proof. intros env st. cbn. lia. Qed.

Lemma atMost_modify n f : atMost n (modify f).
Proof. intros env st. cbn. lia. Qed.

Lemma atMost_emit n e : isPlayback e = false -> atMost n (emit e).
Proof.
  intros He env st. unfold playbacks. cbn [emit trace].
  rewrite filter_cons_False by (by rewrite He). cbn. lia.
Qed.

Lemma atMost_loadManifest n packName : atMost n (loadManifest packName).
Proof. intros env st. rewrite loadManifest_run. cbn. lia. Qed.

Lemma atMost_checkAnnoyed n : atMost n checkAnnoyed.
Proof. intros env st. rewrite checkAnnoyed_run. cbn. lia. Qed.

Lemma atMost_playSound category : atMost 1 (playSound category).
Proof.
  intros env st.
  destruct (playSound_trace category env st) as [->|(vol & p & ->)]; [cbn; lia|].
  unfold playbacks. rewrite filter_cons_True by done. rewrite filter_nil. cbn. lia.
Qed.

Lemma atMost_bind {A B} a b (m : M A) (k : A -> M B) :
  atMost a m -> (forall x, atMost b (k x)) -> atMost (a + b) (bind m k).
Proof.
  intros Hm Hk env st. unfold bind. specialize (Hm env st).
  destruct (outcome (m env st)) as [x|e]; cbn [trace]; [|lia].
  rewrite playbacks_app. specialize (Hk x env (state (m env st))). lia.
Qed.

Lemma atMost_whenLine n line k :
  (forall l, atMost n (k l)) -> atMost n (whenLine line k).
Proof.
  intros Hk. unfold whenLine. destruct line as [l|]; [|apply atMost_ret].
  destruct (bool_decide (l = "")); [apply atMost_ret | apply Hk].
Qed.

(** Solves an [atMost] goal: silent steps count 0, [playSound] counts 1,
    and a sequence splits its budget between its two parts. *)
Ltac solve_atMost :=
  first
    [ apply atMost_playSound
    | apply atMost_ret
    | apply atMost_throw
    | apply atMost_gets
    | apply atMost_asks
    | apply atMost_modify
    | apply atMost_loadManifest
    | apply atMost_checkAnnoyed
    | apply atMost_emit; reflexivity
    | apply atMost_whenLine; intros ?; solve_atMost
    | lazymatch goal with
      | |- atMost _ (if ?b then _ else _) => destruct b; solve_atMost
      | |- atMost _ (match ?x with Some _ => _ | None => _ end) =>
          destruct x; solve_atMost
      end
    | apply (atMost_bind 0 0); [solve_atMost | intros ?; solve_atMost]
    | apply (atMost_bind 0 1); [solve_atMost | intros ?; solve_atMost]
    | apply (atMost_bind 1 0); [solve_atMost | intros ?; solve_atMost] ].

(** X16.  No handler issues more than one request to the audio player
    for one event. *)
Theorem handle_one_sound ev env st :
  (playbacks (trace (handle ev env st)) <= 1)%nat.
Proof.
  assert (H : atMost 1 (handle ev)); [|apply H].
  destruct ev; cbn [handle];
    unfold on_model_select, on_session_start, on_agent_start, on_agent_end,
      on_tool_result, toggleMute, wc3_volume, applyVolume, syncPackToModel,
      packEmoji, showStatus;
    solve_atMost.
Qed.

(** ** Volume and mute commands, continued *)

Lemma wc3_volume_split args :
  (args ≠ "" /\ volumeAccepted (parseFloat args) = true) \/
  (args = "" \/ volumeAccepted (parseFloat args) = false).
Proof.
  destruct (decide (args = "")) as [->|Hne]; [right; by left|].
  destruct (volumeAccepted (parseFloat args)); [by left | right; by right].
Qed.

(** X17.  The sound that confirms a new volume is played at that volume:
    every request to the player the [/wc3-volume] handler issues carries
    the volume the handler leaves in the state, which is the accepted
    value parsed from the argument or from the prompt answer. *)
Theorem wc3_volume_confirmation args env st vol soundPath :
  execFile_afplay vol soundPath ∈ trace (wc3_volume args env st) ->
  vol = volume (state (wc3_volume args env st)) /\
  volumeAccepted vol = true /\
  (vol = parseFloat args \/ exists input, ui_input env = Some input /\ vol = parseFloat input).
Proof.
  destruct (wc3_volume_split args) as [[Hargs Hacc]|Hcase].
  - rewrite (wc3_volume_inline _ _ _ Hargs Hacc).
    destruct (applyVolume_effect (parseFloat args) env st) as (Hvol & _ & _ & _).
    rewrite Hvol, applyVolume_run. cbn [trace].
    intros [[=]|[p [= -> _]]%playSound_trace_volume]%elem_of_cons.
    cbn [volume set_volume]. auto.
  - rewrite (wc3_volume_prompted _ _ _ Hcase). cbn zeta.
    destruct (ui_input env) as [input|] eqn:Hinput.
    2:{ intros [[=]|[]%elem_of_nil]%elem_of_cons. }
    destruct (volumeAccepted (parseFloat input)) eqn:Hacc.
    2:{ intros [[=]|[[=]|[]%elem_of_nil]%elem_of_cons]%elem_of_cons. }
    destruct (applyVolume_effect (parseFloat input) env st) as (Hvol & _ & _ & _).
    cbn [state trace]. rewrite Hvol, applyVolume_run. cbn [trace].
    intros [[=]|[[=]|[p [= -> _]]%playSound_trace_volume]%elem_of_cons]%elem_of_cons.
    cbn [volume set_volume]. split; [done|]. split; [done|]. right. by exists input.
Qed.

Lemma wc3_volume_confirmation_witness :
  let r := wc3_volume "0.25" peonHost loud in
  Num (1 # 4) = volume (state r) /\
  volumeAccepted (Num (1 # 4)) = true /\
  (Num (1 # 4) = parseFloat "0.25" \/
   exists input, ui_input peonHost = Some input /\ Num (1 # 4) = parseFloat input).
Proof.
  intros r.
  apply (wc3_volume_confirmation "0.25" peonHost loud (Num (1 # 4))
           "/ext/packs/peon/sounds/PeonReady1.wav").
  vm_compute. right. left.
Defined.



(** X19.  The mute command and the shortcut do the same: they flip
    [muted], leave the rest of the state alone and announce the new
    setting; doing it twice restores the state. *)
Theorem toggleMute_involution env env' st :
  handle command_wc3_mute env st = handle shortcut_ctrl_shift_m env st /\
  let r := handle command_wc3_mute env st in
  outcome r = Normal tt /\
  state r = set_muted (negb (muted st)) st /\
  trace r = [ui_notify (if muted (state r) then SoundsMuted else SoundsUnmuted) "info"] /\
  state (handle command_wc3_mute env' (state r)) = st.
Proof.
  split; [done|]. cbn. repeat (split; [done|]).
  destruct st as [b ? ? ? ?]. cbn. by rewrite negb_involutive.
Qed.

(** ** Model resolver, continued *)

Lemma toLowerCase_app a b : toLowerCase (a +:+ b) = toLowerCase a +:+ toLowerCase b.
Proof. induction a as [|c a IH]; simpl; [done | by rewrite IH]. Qed.

(** X20.  The match on ["codex"] ignores letter case and the [name] field,
    and an absent field counts as the empty string: a descriptor whose
    [id] or [provider] contains ["codex"] in any mix of capitals gives
    ["peasant"]; descriptors that differ only in [name], or only in an
    absent against an empty [id] or [provider], give the same pack. *)
Theorem packForModel_case_insensitive :
  (forall m pre w post,
     toLowerCase w = "codex" ->
     Model.id m = Some (pre +:+ w +:+ post) \/
     Model.provider m = Some (pre +:+ w +:+ post) ->
     packForModel (Some m) = "peasant") /\
  (forall provider id name name',
     packForModel (Some (Model.Build provider id name)) =
     packForModel (Some (Model.Build provider id name'))) /\
  (forall provider name,
     packForModel (Some (Model.Build provider None name)) =
     packForModel (Some (Model.Build provider (Some "") name))) /\
  (forall id name,
     packForModel (Some (Model.Build None id name)) =
     packForModel (Some (Model.Build (Some "") id name))).
Proof.
  split; [|by repeat split].
  intros m pre w post Hw Hfield. apply packForModel_codex.
  destruct Hfield as [Hid|Hprov]; [left | right];
    exists (toLowerCase pre), (toLowerCase post);
    [rewrite Hid | rewrite Hprov]; unfold orEmpty; cbn [default from_option id];
    by rewrite !toLowerCase_app, Hw.
Qed.

Lemma packForModel_case_insensitive_witness :
  packForModel (Some (Model.Build (Some "openai") (Some "GPT-5-CoDeX-high") None)) =
  "peasant".
Proof.
  apply (proj1 packForModel_case_insensitive _ "GPT-5-" "CoDeX" "-high").
  - reflexivity.
  - left. reflexivity.
Defined.

(** ** Handlers, continued *)

(** X21.  A [model_select] that changes the pack plays no sound; it shows
    one status text, [Switched to] followed by the display name from the
    new pack's manifest, or by the pack id when that manifest cannot be
    loaded, and schedules its removal after 3000 ms. *)
Theorem model_select_status model env st :
  packForModel model ≠ currentPack st ->
  let r := handle (model_select model) env st in
  let newPack := packForModel model in
  let emoji := if bool_decide (newPack = "peasant") then "🏰" else "🪓" in
  let status name :=
    [ ui_setStatus "wc3" (Some (emoji +:+ " Switched to " +:+ name));
      setTimeout (ui_setStatus "wc3" None) 3000 ] in
  outcome r = Normal tt /\
  noPlayback (trace r) /\
  (forall manifest, loaded env newPack = Some manifest ->
     trace r = status (PackManifest.display_name manifest)) /\
  (loaded env newPack = None -> trace r = status newPack).
Proof.
  intros Hne r newPack emoji status. subst r. cbn [handle].
  rewrite (on_model_select_switch model env st Hne). cbn [outcome trace].
  fold newPack. fold emoji.
  split; [done|]. split.
  - intros vol p Hin. apply list_elem_of_In in Hin. cbn in Hin.
    by destruct Hin as [?|[?|[]]].
  - split.
    + intros manifest Hman. by rewrite Hman.
    + intros Hman. by rewrite Hman.
Qed.

Lemma model_select_status_witness :
  let r := handle (model_select (Some codexModel)) peonHost playedReady in
  outcome r = Normal tt /\
  trace r = [ ui_setStatus "wc3" (Some ("🏰" +:+ " Switched to " +:+ "peasant"));
              setTimeout (ui_setStatus "wc3" None) 3000 ].
Proof.
  intros r.
  assert (Hne : packForModel (Some codexModel) ≠ currentPack playedReady)
    by (vm_compute; discriminate).
  destruct (model_select_status (Some codexModel) peonHost playedReady Hne)
    as (Hout & _ & _ & Hnone).
  split; [exact Hout|]. apply Hnone. vm_compute. reflexivity.
Defined.

(** A continuation that leaves the state alone does not change where a
    sequence ends. *)
Lemma syncPackToModel_stamps model env st :
  promptTimestamps (state (syncPackToModel model env st)) = promptTimestamps st.
Proof.
  destruct (decide (packForModel model = currentPack st)) as [Heq|Hne].
  - by rewrite syncPackToModel_same.
  - by rewrite syncPackToModel_switch.
Qed.

Lemma whenLine_status (p : M (option string)) (text : string -> string) ms env st :
  (let* line := p in whenLine line (fun l => showStatus (text l) ms)) env st =
  thenStatus (p env st) text ms.
Proof.
  unfold bind, thenStatus, statusFor. destruct (p env st) as [[[l|]|e] st' tr];
    cbn [outcome state trace whenLine].
  - by destruct (bool_decide (l = "")).
  - reflexivity.
  - by rewrite app_nil_r.
Qed.

Lemma playSound_currentPack category env st :
  currentPack (state (playSound category env st)) = currentPack st.
Proof. by destruct (playSound_frame category env st) as [-> | [f ->]]. Qed.

(** X22.  The [agent_start] handler first synchronises the pack, then
    records the prompt time, and then does what a call of [playSound]
    does for one category, [annoyed] when the recorded sequence has
    reached three entries and [acknowledge] otherwise: its effects are
    those of that call, followed by the status line (the line in quotes
    after the category's emoji, removed after 3000 ms) when the call
    returned a non-empty line, and it throws when the call throws.  The
    time is recorded whether or not a sound is played (muted, off macOS,
    nothing to pick, or the pick throwing), and only the played
    category's entry of [lastPlayed] can change after the
    synchronisation. *)
Theorem agent_start_records model env st :
  let r := handle (agent_start model) env st in
  let st0 := state (syncPackToModel model env st) in
  let stamps :=
    filter (fun t => (Date_now env - t < 10000)%Z) (promptTimestamps st)
    ++ [Date_now env] in
  let annoyed := (3 <=? length stamps)%nat in
  let category := if annoyed then Annoyed else Acknowledge in
  r = thenStatus (playSound category env (set_promptTimestamps stamps st0))
        (fun l => (if annoyed then "😤 " else "⚔️ ") +:+ quoted l) 3000 /\
  promptTimestamps (state r) = stamps /\
  (forall other, other ≠ category ->
     lastPlayed (state r) !! key other = lastPlayed st0 !! key other).
Proof.
  intros r st0 stamps annoyed category.
  assert (Hr : r = thenStatus (playSound category env (set_promptTimestamps stamps st0))
                 (fun l => (if annoyed then "😤 " else "⚔️ ") +:+ quoted l) 3000).
  { subst r. cbn [handle]. unfold on_agent_start.
    destruct (syncPackToModel_result model env st) as (st0' & Hsync & _).
    assert (st0' = st0) as -> by (subst st0; by rewrite Hsync).
    rewrite (bind_run _ _ env st tt st0 [] Hsync).
    assert (Hcheck : checkAnnoyed env st0 =
              mkResult (Normal annoyed) (set_promptTimestamps stamps st0) []).
    { rewrite checkAnnoyed_run. cbn zeta. subst annoyed stamps st0.
      by rewrite syncPackToModel_stamps. }
    rewrite (bind_run _ _ env st0 _ _ [] Hcheck).
    cbn [outcome state trace app]. rewrite <- result_eta.
    subst category. destruct annoyed; apply whenLine_status. }
  split; [exact Hr|]. rewrite Hr. cbn [thenStatus state].
  destruct (playSound_frame category env (set_promptTimestamps stamps st0))
    as [->|[f ->]]; cbn [promptTimestamps lastPlayed set_lastPlayed set_promptTimestamps].
  - done.
  - split; [done|]. intros other Hne. apply lookup_insert_ne.
    intros Heq. by apply key_inj in Heq.
Qed.

Lemma agent_start_records_witness :
  (outcome (handle (agent_start None) chatHost initialState) = Normal tt /\
   trace (handle (agent_start None) chatHost initialState) =
     [ execFile_afplay (Num (1 # 2)) "/ext/packs/peon/sounds/PeonYes1.wav";
       ui_setStatus "wc3" (Some ("⚔️ " +:+ quoted "I can do that."));
       setTimeout (ui_setStatus "wc3" None) 3000 ] /\
   promptTimestamps (state (handle (agent_start None) chatHost initialState)) = [0%Z]) /\
  trace (handle (agent_start None) chatHost (set_promptTimestamps [0; 0]%Z initialState)) =
    [ execFile_afplay (Num (1 # 2)) "/ext/packs/peon/sounds/PeonAngry1.wav";
      ui_setStatus "wc3" (Some ("😤 " +:+ quoted "Whaaat?"));
      setTimeout (ui_setStatus "wc3" None) 3000 ].
Proof.
  split.
  - rewrite (proj1 (agent_start_records None chatHost initialState)).
    vm_compute. by repeat split.
  - rewrite (proj1 (agent_start_records None chatHost
                      (set_promptTimestamps [0; 0]%Z initialState))).
    by vm_compute.
Defined.

(** ** Which sound an event plays *)

(** X23.  Each event does what a call of [playSound] for its own
    category does, and shows that call's line: [session_start] plays the
    greeting, after synchronising the pack, with the emoji of the model's
    pack; [agent_end] plays [complete]; a [tool_result] with the error
    flag plays [error].  The handler's outcome, state and effects are
    those of the call, followed by the status line when the call returned
    a non-empty line.  A [tool_result] without the error flag does nothing
    at all. *)
Theorem handle_routing env st :
  (forall model,
     handle (session_start model) env st =
     thenStatus (playSound Greeting env (state (syncPackToModel model env st)))
       (fun l => (if bool_decide (packForModel model = "peasant") then "🏰" else "🪓")
                 +:+ " " +:+ quoted l) 3000) /\
  handle agent_end env st =
    thenStatus (playSound Complete env st) (fun l => "✅ " +:+ quoted l) 4000 /\
  handle (tool_result true) env st =
    thenStatus (playSound Error env st) (fun l => "💀 " +:+ quoted l) 3000 /\
  handle (tool_result false) env st = mkResult (Normal tt) st [].
Proof.
  cbn [handle]. split; [|split; [|split; [|done]]].
  - intros model. unfold on_session_start.
    destruct (syncPackToModel_result model env st) as (st0 & Hsync & Hpack).
    rewrite (bind_run _ _ env st tt st0 [] Hsync), Hsync.
    cbn [outcome state trace app]. rewrite <- result_eta.
    pose proof (playSound_currentPack Greeting env st0) as Hkept.
    unfold bind, thenStatus, statusFor.
    destruct (playSound Greeting env st0) as [[[l|]|e] st' tr];
      cbn [outcome state trace whenLine] in *;
      [|reflexivity | by rewrite app_nil_r].
    destruct (bool_decide (l = "")); [done|].
    unfold packEmoji, bind, gets, ret, showStatus, emit.
    cbn [outcome state trace app]. by rewrite Hkept, Hpack.
  - unfold on_agent_end. apply whenLine_status.
  - unfold on_tool_result. apply whenLine_status.
Qed.

Lemma handle_routing_witness :
  handle (session_start None) peonHost initialState =
    mkResult (Normal tt) playedReady
      [ execFile_afplay (Num (1 # 2)) "/ext/packs/peon/sounds/PeonReady1.wav";
        ui_setStatus "wc3" (Some ("🪓 " +:+ quoted "Ready to work?"));
        setTimeout (ui_setStatus "wc3" None) 3000 ] /\
  trace (handle (tool_result true) peonHost initialState) =
    [ execFile_afplay (Num (1 # 2)) "/ext/packs/peon/sounds/PeonAngry4.wav";
      ui_setStatus "wc3" (Some ("💀 " +:+ quoted "Me not that kind of orc!"));
      setTimeout (ui_setStatus "wc3" None) 3000 ].
Proof.
  split.
  - rewrite (proj1 (handle_routing peonHost initialState) None). by vm_compute.
  - rewrite (proj1 (proj2 (proj2 (handle_routing peonHost initialState)))).
    by vm_compute.
Defined.

(** X24.  [agent_end] shows a status exactly when [playSound] returned a
    non-empty line: then the request to the player is followed by the
    status text, the line in quotes after a check mark, and its removal
    is scheduled after 4000 ms; when [playSound] returns [null] the
    handler adds nothing; when it throws, the handler throws. *)
Theorem agent_end_status env st :
  let p := playSound Complete env st in
  let r := handle agent_end env st in
  (forall l, outcome p = Normal (Some l) -> l ≠ "" ->
     outcome r = Normal tt /\
     trace r = trace p ++
       [ ui_setStatus "wc3" (Some ("✅ " +:+ quoted l));
         setTimeout (ui_setStatus "wc3" None) 4000 ]) /\
  (outcome p = Normal None \/ outcome p = Normal (Some "") ->
     outcome r = Normal tt /\ trace r = trace p) /\
  (forall e, outcome p = Throw e -> outcome r = Throw e /\ trace r = trace p).
Proof.
  intros p r. subst p r. cbn [handle]. unfold on_agent_end, bind.
  split; [|split].
  - intros l -> Hne. cbn [whenLine outcome trace].
    by rewrite bool_decide_eq_false_2.
  - intros [-> | ->]; cbn; by rewrite app_nil_r.
  - by intros e ->.
Qed.

Lemma agent_end_status_witness :
  outcome (handle agent_end workHost initialState) = Normal tt /\
  trace (handle agent_end workHost initialState) =
    trace (playSound Complete workHost initialState) ++
    [ ui_setStatus "wc3" (Some ("✅ " +:+ quoted "Work, work."));
      setTimeout (ui_setStatus "wc3" None) 4000 ].
Proof.
  apply (proj1 (agent_end_status workHost initialState) "Work, work.").
  - vm_compute. reflexivity.
  - discriminate.
Defined.

(** ** Exceptions *)

Section ThrowsOnly.
Variable P : Env -> Prop.
Variable I : State -> Prop.
Variable X : Exn -> Prop.

Lemma throwsOnly_ret {A} (a : A) : throwsOnly P I X (ret a).
Proof. intros env st _ HI. by split. Qed.

Lemma throwsOnly_gets {A} (f : State -> A) : throwsOnly P I X (gets f).
Proof. intros env st _ HI. by split. Qed.

Lemma throwsOnly_asks {A} (f : Env -> A) : throwsOnly P I X (asks f).
Proof. intros env st _ HI. by split. Qed.

Lemma throwsOnly_emit e : throwsOnly P I X (emit e).
Proof. intros env st _ HI. by split. Qed.

Lemma throwsOnly_modify f : (forall st, I st -> I (f st)) -> throwsOnly P I X (modify f).
Proof. intros Hf env st _ HI. split; [by apply Hf | done]. Qed.

Lemma throwsOnly_loadManifest packName : throwsOnly P I X (loadManifest packName).
Proof. intros env st _ HI. rewrite loadManifest_run. by split. Qed.

Lemma throwsOnly_checkAnnoyed :
  (forall l st, I st -> I (set_promptTimestamps l st)) -> throwsOnly P I X checkAnnoyed.
Proof. intros Hf env st _ HI. rewrite checkAnnoyed_run. split; [by apply Hf | done]. Qed.

Lemma throwsOnly_bind {A B} (m : M A) (k : A -> M B) :
  throwsOnly P I X m -> (forall a, throwsOnly P I X (k a)) -> throwsOnly P I X (bind m k).
Proof.
  intros Hm Hk env st HP HI. unfold bind.
  destruct (Hm env st HP HI) as [HI1 HX1].
  destruct (outcome (m env st)) as [a|e]; cbn [state outcome].
  - by apply Hk.
  - split; [done|]. intros e' [= <-]. by apply HX1.
Qed.

Lemma throwsOnly_whenLine line k :
  (forall l, throwsOnly P I X (k l)) -> throwsOnly P I X (whenLine line k).
Proof.
  intros Hk. unfold whenLine. destruct line as [l|]; [|apply throwsOnly_ret].
  destruct (bool_decide (l = "")); [apply throwsOnly_ret | apply Hk].
Qed.
End ThrowsOnly.

Create HintDb throws.

Ltac throws_step tacI :=
  first
    [ solve [auto with throws nocore]
    | apply throwsOnly_ret
    | apply throwsOnly_gets
    | apply throwsOnly_asks
    | apply throwsOnly_emit
    | apply throwsOnly_loadManifest
    | apply throwsOnly_modify; solve [tacI]
    | apply throwsOnly_checkAnnoyed; solve [tacI]
    | apply throwsOnly_whenLine; intros ?
    | apply throwsOnly_bind; [|intros ?]
    | match goal with
      | |- throwsOnly _ _ _ (if ?b then _ else _) => destruct b
      | |- throwsOnly _ _ _ (match ?x with Some _ => _ | None => _ end) => destruct x
      end ].

Ltac throws_auto tacI :=
  unfold on_model_select, on_session_start, on_agent_start, on_agent_end,
    on_tool_result, toggleMute, wc3_volume, applyVolume, syncPackToModel,
    packEmoji, showStatus;
  repeat throws_step tacI.

Lemma playSound_throws_TypeError category :
  throwsOnly (fun _ => True) (fun _ => True) (fun e => e = TypeError)
             (playSound category).
Proof.
  intros env st _ _. split; [done|]. rewrite playSound_run.
  destruct (muted st || negb (IS_MACOS env)); [done|].
  destruct (pickSound_cases category env st) as [H|[H|[pick H]]]; rewrite H;
    cbn [outcome state]; [done | by intros e [= <-] |].
  cbn zeta. by destruct (existsSync env _).
Qed.

Lemma playSound_completes_muted category :
  throwsOnly (fun _ => True) (fun st => muted st = true) (fun _ => False)
             (playSound category).
Proof. intros env st _ Hmuted. rewrite playSound_run, Hmuted. by split. Qed.

Lemma playSound_completes_off category :
  throwsOnly (fun env => IS_MACOS env = false) (fun _ => True) (fun _ => False)
             (playSound category).
Proof. intros env st Hmac _. rewrite playSound_run, Hmac, orb_true_r. by split. Qed.

#[local] Hint Resolve playSound_throws_TypeError playSound_completes_muted
  playSound_completes_off : throws.

(** X25.  File-system and JSON errors never leave a handler: the only
    exception a handler can end with is the [TypeError] of the
    out-of-bounds pick, and while [muted] is set or off macOS every
    handler completes normally. *)
Theorem handle_throws ev env st e :
  outcome (handle ev env st) = Throw e ->
  e = TypeError /\ muted st = false /\ IS_MACOS env = true.
Proof.
  intros Hthrow. split; [|split].
  - assert (H : throwsOnly (fun _ => True) (fun _ => True) (fun e => e = TypeError)
                           (handle ev))
      by (destruct ev; cbn [handle]; throws_auto ltac:(done)).
    by apply (proj2 (H env st Logic.I Logic.I)).
  - destruct (muted st) eqn:Hmuted; [exfalso|done].
    destruct ev as [m|m|m| |isError| |args|]; cbn [handle] in Hthrow;
      try discriminate Hthrow;
      match type of Hthrow with
      | outcome (?h env st) = _ =>
          assert (H : throwsOnly (fun _ => True) (fun s => muted s = true)
                                 (fun _ => False) h)
            by throws_auto ltac:(intros; assumption);
          exact (proj2 (H env st Logic.I Hmuted) e Hthrow)
      end.
  - destruct (IS_MACOS env) eqn:Hmac; [done|exfalso].
    assert (H : throwsOnly (fun env => IS_MACOS env = false) (fun _ => True)
                           (fun _ => False) (handle ev))
      by (destruct ev; cbn [handle]; throws_auto ltac:(done)).
    exact (proj2 (H env st Hmac Logic.I) e Hthrow).
Qed.

Lemma handle_throws_witness :
  TypeError = TypeError /\ muted playedReady = false /\ IS_MACOS echoHost = true.
Proof.
  apply (handle_throws agent_end (hostWith
           {| PackManifest.name := "peon";
              PackManifest.display_name := "Orc Peon";
              PackManifest.categories :=
                {[ "complete" := PackManifest.Category
                     [ mkSoundEntry "PeonYes3.wav" "Work, work.";
                       mkSoundEntry "PeonYes3.wav" "Work, work!" ] ]} |}
           [] 0 None)
         (set_lastPlayed {[ "complete" := "PeonYes3.wav" ]} initialState)).
  vm_compute. reflexivity.
Defined.
